(** * EdenFS core: proxy hashes, takeover codec and the file inode state

    A shallow embedding of three parts of the EdenFS daemon,

    - [eden/fs/store/hg/HgProxyHash.cpp]   (module [HgProxyHash]),
    - [eden/fs/takeover/TakeoverData.cpp]  (module [Takeover]),
    - [eden/fs/inodes/FileInode.cpp]       (module [FileInode]),

    together with the properties their specification states about them.
    Byte strings are [list byte]; fixed-width unsigned integers are [Z]
    with the wrap-around written out; C++ exceptions and fatal checks are
    values of a result type. *)

From Stdlib Require Import ZArith Lia.
From Stdlib Require Import Strings.Byte.
From stdpp Require Import base option list gmap sorting.

Local Open Scope Z_scope.

(** ** Bytes and big-endian words *)

Module Bytes.

Abbreviation bytes := (list byte).

Definition Z_of_byte (b : byte) : Z := Z.of_N (Byte.to_N b).

(** The low eight bits of [z], as a byte. *)
Definition byte_of_Z (z : Z) : byte :=
  default "000"%byte (Byte.of_N (Z.to_N (z mod 256))).

#[export] Instance byte_eq_dec : EqDecision byte := Byte.byte_eq_dec.

Lemma byte_of_to_N (b : byte) : default "000"%byte (Byte.of_N (Byte.to_N b)) = b.
Proof. by rewrite Byte.of_to_N. Qed.

#[export] Instance byte_countable : Countable byte :=
  inj_countable' Byte.to_N (λ n, default "000"%byte (Byte.of_N n)) byte_of_to_N.

Definition UINT32_MAX : Z := 4294967295.
Definition UINT64_MAX : Z := 18446744073709551615.

(** [static_cast<uint32_t>] and [static_cast<uint64_t>]. *)
Definition u32 (z : Z) : Z := z mod 2 ^ 32.
Definition u64 (z : Z) : Z := z mod 2 ^ 64.

(** The four bytes [folly::Endian::big] lays out for a [uint32_t], which is
    also what [Appender::writeBE<uint32_t>] appends. *)
Definition writeBE32 (x : Z) : bytes :=
  [byte_of_Z (Z.shiftr x 24); byte_of_Z (Z.shiftr x 16);
   byte_of_Z (Z.shiftr x 8); byte_of_Z x].

(** The value of a big-endian byte string. *)
Definition be_value (bs : bytes) : Z :=
  foldl (λ acc b, acc * 256 + Z_of_byte b) 0 bs.

(** [memcpy] of four bytes followed by [Endian::big], and
    [Cursor::readBE<uint32_t>] on at least four available bytes. *)
Definition readBE32 (bs : bytes) : Z := be_value (take 4 bs).

Definition writeBE64 (x : Z) : bytes :=
  writeBE32 (Z.shiftr x 32) ++ writeBE32 x.

Definition zeros (n : nat) : bytes := replicate n "000"%byte.

Lemma Z_of_byte_range b : 0 <= Z_of_byte b < 256.
Proof.
  unfold Z_of_byte. pose proof (Byte.to_N_bounded b) as Hb.
  apply N.lt_succ_r in Hb. lia.
Qed.

Lemma Z_of_byte_of_Z z : Z_of_byte (byte_of_Z z) = z mod 256.
Proof.
  unfold Z_of_byte, byte_of_Z.
  assert (Hr : 0 <= z mod 256 < 256) by (apply Z.mod_pos_bound; lia).
  destruct (Byte.of_N (Z.to_N (z mod 256))) as [b|] eqn:E.
  - apply Byte.to_of_N in E. simpl. rewrite E. lia.
  - apply Byte.of_N_None_iff in E. lia.
Qed.

Lemma length_writeBE32 x : length (writeBE32 x) = 4%nat.
Proof. reflexivity. Qed.

Lemma readBE32_writeBE32 x rest :
  0 <= x <= UINT32_MAX → readBE32 (writeBE32 x ++ rest) = x.
Proof.
  intros Hx. unfold readBE32, writeBE32, be_value, UINT32_MAX in *. simpl.
  rewrite !Z_of_byte_of_Z, !Z.shiftr_div_pow2 by lia.
  change (2 ^ 24) with 16777216. change (2 ^ 16) with 65536.
  change (2 ^ 8) with 256.
  replace (x / 16777216) with (x / 256 / 256 / 256)
    by (rewrite !Z.div_div by lia; reflexivity).
  replace (x / 65536) with (x / 256 / 256)
    by (rewrite !Z.div_div by lia; reflexivity).
  pose proof (Z.div_mod x 256 ltac:(lia)) as H0.
  pose proof (Z.div_mod (x / 256) 256 ltac:(lia)) as H1.
  pose proof (Z.div_mod (x / 256 / 256) 256 ltac:(lia)) as H2.
  assert (H3 : 0 <= x / 256 / 256 / 256 < 256).
  { split; [repeat apply Z.div_pos; lia|].
    repeat (apply Z.div_lt_upper_bound; [lia|]). lia. }
  rewrite (Z.mod_small (x / 256 / 256 / 256)) by lia.
  lia.
Qed.

End Bytes.
Export Bytes.

(** ** SHA-1

    Modelled from the spec: [ObjectId::sha1] (eden/fs/model/Hash.cpp is not
    among the sources).  The specification names the function SHA-1, so this is
    the algorithm of FIPS 180-4 on 32-bit words kept as [Z]. *)

Module SHA1.

Definition word := Z.

Definition rotl (n : Z) (x : word) : word :=
  u32 (Z.lor (Z.shiftl x n) (Z.shiftr x (32 - n))).

Definition add32 (x y : word) : word := u32 (x + y).

Definition lnot32 (x : word) : word := Z.lxor x UINT32_MAX.

(** The round function and constant of round [t]. *)
Definition f (t : nat) (b c d : word) : word :=
  if (t <? 20)%nat then Z.lor (Z.land b c) (Z.land (lnot32 b) d)
  else if (t <? 40)%nat then Z.lxor (Z.lxor b c) d
  else if (t <? 60)%nat then
    Z.lor (Z.lor (Z.land b c) (Z.land b d)) (Z.land c d)
  else Z.lxor (Z.lxor b c) d.

Definition K (t : nat) : word :=
  if (t <? 20)%nat then 0x5A827999
  else if (t <? 40)%nat then 0x6ED9EBA1
  else if (t <? 60)%nat then 0x8F1BBCDC
  else 0xCA62C1D6.

(** Message padding: a one bit, zeros up to 56 modulo 64, then the bit length
    as a big-endian 64-bit word. *)
Definition pad (msg : bytes) : bytes :=
  let len := Z.of_nat (length msg) in
  msg ++ [byte_of_Z 128] ++ zeros (Z.to_nat ((55 - len) mod 64))
      ++ writeBE64 (u64 (8 * len)).

Fixpoint chunks (fuel : nat) (n : nat) (bs : bytes) : list bytes :=
  match fuel, bs with
  | O, _ | _, [] => []
  | S fuel', _ => take n bs :: chunks fuel' n (drop n bs)
  end.

Definition words_of_block (block : bytes) : list word :=
  map readBE32 (chunks 16 4 block).

(** The message schedule, newest word first: [W_t] is computed from
    [W_(t-3)], [W_(t-8)], [W_(t-14)] and [W_(t-16)]. *)
Definition extend (ws : list word) : list word :=
  rotl 1 (Z.lxor (Z.lxor (nth 2 ws 0) (nth 7 ws 0))
                 (Z.lxor (nth 13 ws 0) (nth 15 ws 0))) :: ws.

Definition schedule (block : bytes) : list word :=
  rev (Nat.iter 64 extend (rev (words_of_block block))).

Record state := State { ha : word; hb : word; hc : word; hd : word; he : word }.

Definition init : state :=
  State 0x67452301 0xEFCDAB89 0x98BADCFE 0x10325476 0xC3D2E1F0.

Definition round (s : state) (tw : nat * word) : state :=
  let '(t, w) := tw in
  let temp :=
    add32 (add32 (add32 (add32 (rotl 5 (ha s)) (f t (hb s) (hc s) (hd s)))
                        (he s)) (K t)) w in
  State temp (ha s) (rotl 30 (hb s)) (hc s) (hd s).

Definition compress (h : state) (block : bytes) : state :=
  let s := foldl round h (zip (seq 0 80) (schedule block)) in
  State (add32 (ha h) (ha s)) (add32 (hb h) (hb s)) (add32 (hc h) (hc s))
        (add32 (hd h) (hd s)) (add32 (he h) (he s)).

Definition digest (s : state) : bytes :=
  writeBE32 (ha s) ++ writeBE32 (hb s) ++ writeBE32 (hc s)
    ++ writeBE32 (hd s) ++ writeBE32 (he s).

Definition sha1 (msg : bytes) : bytes :=
  let padded := pad msg in
  digest (foldl compress init (chunks (length padded) 64 padded)).

Lemma length_sha1 msg : length (sha1 msg) = 20%nat.
Proof. unfold sha1, digest. by rewrite !length_app, !length_writeBE32. Qed.

End SHA1.

(** The value [HgProxyHash::sha1] hard-codes for the empty proxy hash,
    [d3399b7262fb56cb9ed053d68db9291c410839c4], is the digest of twenty zero
    bytes followed by a zero length word. *)
Example sha1_empty_proxy_hash :
  map Z_of_byte (SHA1.sha1 (zeros 24)) =
  [0xd3; 0x39; 0x9b; 0x72; 0x62; 0xfb; 0x56; 0xcb; 0x9e; 0xd0;
   0x53; 0xd6; 0x8d; 0xb9; 0x29; 0x1c; 0x41; 0x08; 0x39; 0xc4].
Proof. vm_compute. reflexivity. Qed.

(** ** Results of code that may throw *)

Module Result.

(** The C++ exceptions the modelled code raises, and the fatal checks
    ([XCHECK], [EDEN_BUG], [XLOG(FATAL)]) that end the process. *)
Inductive exn :=
| invalid_argument   (* std::invalid_argument *)
| length_error       (* std::length_error *)
| value_not_present  (* StoreResult::extractValue on a missing entry *)
| runtime_error      (* std::runtime_error *)
| out_of_range       (* std::out_of_range, a Cursor read past the end *)
| domain_error       (* std::domain_error, a path that fails its check *)
| system_error       (* std::system_error, a failed I/O call *)
| inode_error        (* InodeError, an errno for the kernel channel *)
| fatal.             (* a failed XCHECK: the process aborts *)

Inductive result (A : Type) :=
| Ok (a : A)
| Throw (e : exn).
Arguments Ok {A} a.
Arguments Throw {A} e.

#[export] Instance result_ret : MRet result := @Ok.

#[export] Instance result_bind : MBind result := λ A B k r,
  match r with
  | Ok a => k a
  | Throw e => Throw e
  end.

#[export] Instance result_fmap : FMap result := λ A B g r,
  match r with
  | Ok a => Ok (g a)
  | Throw e => Throw e
  end.

Definition is_ok {A} (r : result A) : bool :=
  match r with Ok _ => true | Throw _ => false end.

#[export] Instance exn_eq_dec : EqDecision exn.
Proof. solve_decision. Defined.

End Result.
Export Result.

(** ** HgProxyHash.cpp *)

Module HgProxyHash.

(** An [ObjectId] is a byte string of any length; a [Hash20] holds exactly
    [RAW_SIZE] bytes; a [RelativePathPiece] is the byte string of the path. *)
Abbreviation ObjectId := (list byte) (only parsing).
Abbreviation Hash20 := (list byte) (only parsing).
Abbreviation RelativePath := (list byte) (only parsing).

Definition RAW_SIZE : nat := 20.

(** The tag of an embedded proxy hash: [0x01] (HgProxyHash.h is not among the
    sources; the specification gives the value). *)
Definition TYPE_HG_ID_NO_PATH : byte := "001"%byte.

Definition kZeroHash : Hash20 := zeros RAW_SIZE.

(** The [HgProxyHashFamily] key space of the [LocalStore], and the pending
    [put]s of a [LocalStore::WriteBatch] on that key space, oldest first. *)
Abbreviation LocalStore := (gmap (list byte) (list byte)) (only parsing).
Abbreviation WriteBatch := (list (list byte * list byte)) (only parsing).

Record HgProxyHash := mkHgProxyHash { value_ : bytes }.

(** [<hash_bytes><path_length><path>], the length as a big-endian
    [uint32_t]; the [XCHECK] rejects a path whose length does not fit. *)
Definition serialize (path : RelativePath) (hgRevHash : Hash20) : result bytes :=
  let pathLength := Z.of_nat (length path) in
  if pathLength <=? UINT32_MAX
  then Ok (hgRevHash ++ writeBE32 (u32 pathLength) ++ path)
  else Throw fatal.

Definition prepareToStoreLegacy (path : RelativePath) (hgRevHash : Hash20)
  : result (ObjectId * bytes) :=
  buf ← serialize path hgRevHash;
  let edenBlobHash := SHA1.sha1 buf in
  Ok (edenBlobHash, buf).

Definition storeLegacy (computedPair : ObjectId * bytes) (writeBatch : WriteBatch)
  : WriteBatch :=
  writeBatch ++ [(computedPair.1, computedPair.2)].

Definition makeEmbeddedProxyHash (hgRevHash : Hash20) : ObjectId :=
  [TYPE_HG_ID_NO_PATH] ++ hgRevHash.

(** [store]: the object id, and the write batch after the call. *)
Definition store (path : RelativePath) (hgRevHash : Hash20)
    (writeBatch : option WriteBatch) : result (ObjectId * option WriteBatch) :=
  match writeBatch with
  | None => Ok (makeEmbeddedProxyHash hgRevHash, None)
  | Some batch =>
      computedPair ← prepareToStoreLegacy path hgRevHash;
      Ok (computedPair.1, Some (storeLegacy computedPair batch))
  end.

(** The constructor [HgProxyHash(RelativePathPiece, const Hash20&)]. *)
Definition fromPath (path : RelativePath) (hgRevHash : Hash20) : result HgProxyHash :=
  '(_, buf) ← prepareToStoreLegacy path hgRevHash;
  Ok (mkHgProxyHash buf).

Definition tryParseEmbeddedProxyHash (edenObjectId : ObjectId)
  : result (option HgProxyHash) :=
  if (RAW_SIZE <? length edenObjectId)%nat then
    let type := edenObjectId !! 0%nat in
    if bool_decide (length edenObjectId = S RAW_SIZE) &&
       bool_decide (type = Some TYPE_HG_ID_NO_PATH)
    then
      let hash := take RAW_SIZE (drop 1 edenObjectId) in
      p ← fromPath [] hash; Ok (Some p)
    else Throw invalid_argument
  else Ok None.

Definition validate (edenBlobHash : ObjectId) (value : bytes) : result unit :=
  let infoBytes := value in
  if (length infoBytes <? RAW_SIZE + 4)%nat then Throw length_error
  else
    let infoBytes := drop RAW_SIZE infoBytes in
    let pathLength := readBE32 infoBytes in
    let infoBytes := drop 4 infoBytes in
    if bool_decide (Z.of_nat (length infoBytes) ≠ pathLength)
    then Throw length_error
    else Ok ().

(** [StoreResult::extractValue]: the stored bytes, or the exception of an
    invalid result (StoreResult.h is not among the sources). *)
Definition extractValue (infoResult : option bytes) : result bytes :=
  match infoResult with
  | Some v => Ok v
  | None => Throw value_not_present
  end.

(** The constructors that adopt stored bytes and validate them:
    [HgProxyHash(ObjectId, StoreResult&, StringPiece)] of HgProxyHash.cpp, and
    [HgProxyHash(ObjectId, std::string)], which HgProxyHash.h declares and
    [load] calls on the extracted value. *)
Definition fromStoreResult (edenBlobHash : ObjectId) (infoResult : option bytes)
  : result HgProxyHash :=
  value ← extractValue infoResult;
  _ ← validate edenBlobHash value;
  Ok (mkHgProxyHash value).

Definition fromValue (edenBlobHash : ObjectId) (value : bytes) : result HgProxyHash :=
  _ ← validate edenBlobHash value;
  Ok (mkHgProxyHash value).

(** [load]: the keys it asks the store for, in order, and its result. *)
Definition load (store : LocalStore) (edenObjectId : ObjectId)
  : list ObjectId * result HgProxyHash :=
  match tryParseEmbeddedProxyHash edenObjectId with
  | Throw e => ([], Throw e)
  | Ok (Some embedded) => ([], Ok embedded)
  | Ok None =>
      let infoResult := store !! edenObjectId in
      ([edenObjectId],
       value ← extractValue infoResult; fromValue edenObjectId value)
  end.

(** [getBatch]: embedded ids are resolved on the spot, the others with one
    batch request (none at all when every id is embedded); the result lists
    the embedded hashes first. *)
Fixpoint partitionEmbedded (blobHashes : list ObjectId)
  : result (list HgProxyHash * list ObjectId) :=
  match blobHashes with
  | [] => Ok ([], [])
  | hash :: rest =>
      embedded ← tryParseEmbeddedProxyHash hash;
      '(embedded_results, byteRanges) ← partitionEmbedded rest;
      match embedded with
      | Some e => Ok (e :: embedded_results, byteRanges)
      | None => Ok (embedded_results, hash :: byteRanges)
      end
  end.

Definition getBatch (store : LocalStore) (blobHashes : list ObjectId)
  : list (list ObjectId) * result (list HgProxyHash) :=
  match partitionEmbedded blobHashes with
  | Throw e => ([], Throw e)
  | Ok (embedded_results, []) => ([], Ok embedded_results)
  | Ok (embedded_results, byteRanges) =>
      ([byteRanges],
       results ← mapM (λ k, fromStoreResult k (store !! k)) byteRanges;
       Ok (embedded_results ++ results))
  end.

Definition path (p : HgProxyHash) : RelativePath :=
  if bool_decide (value_ p = []) then []
  else drop (RAW_SIZE + 4) (value_ p).

Definition byteHash (p : HgProxyHash) : bytes :=
  if bool_decide (value_ p = []) then kZeroHash
  else take RAW_SIZE (value_ p).

Definition revHash (p : HgProxyHash) : Hash20 := byteHash p.

Definition sha1 (p : HgProxyHash) : ObjectId :=
  if bool_decide (value_ p = []) then SHA1.sha1 (zeros 24)
  else SHA1.sha1 (value_ p).


(** *** Facts about the legacy serialization *)

Lemma serialize_ok (p : RelativePath) (h : Hash20) :
  Z.of_nat (length p) <= UINT32_MAX →
  serialize p h = Ok (h ++ writeBE32 (Z.of_nat (length p)) ++ p).
Proof.
  intros Hp. unfold serialize.
  destruct (Z.leb_spec (Z.of_nat (length p)) UINT32_MAX) as [_|Hgt]; [|lia].
  unfold u32. rewrite Z.mod_small; [done|]. unfold UINT32_MAX in Hp. lia.
Qed.

Lemma validate_serialized (id : ObjectId) (p : RelativePath) (h : Hash20) :
  length h = RAW_SIZE → Z.of_nat (length p) <= UINT32_MAX →
  validate id (h ++ writeBE32 (Z.of_nat (length p)) ++ p) = Ok ().
Proof.
  intros Hh Hp. unfold validate.
  rewrite !length_app, length_writeBE32, Hh.
  destruct (Nat.ltb_spec (RAW_SIZE + (4 + length p)) (RAW_SIZE + 4)) as [Hlt|_];
    [lia|].
  rewrite drop_app_length' by done.
  rewrite readBE32_writeBE32 by lia.
  rewrite drop_app_length' by done.
  rewrite bool_decide_eq_false_2; [done|]. intros Hne. by apply Hne.
Qed.

Lemma path_serialized (p : RelativePath) (h : Hash20) (n : Z) :
  length h = RAW_SIZE →
  path (mkHgProxyHash (h ++ writeBE32 n ++ p)) = p.
Proof.
  intros Hh. unfold path. cbn [value_].
  rewrite bool_decide_eq_false_2 by (destruct h; [done|by simpl]).
  rewrite app_assoc. apply drop_app_length'.
  by rewrite length_app, length_writeBE32, Hh.
Qed.

Lemma revHash_serialized (p : RelativePath) (h : Hash20) (n : Z) :
  length h = RAW_SIZE →
  revHash (mkHgProxyHash (h ++ writeBE32 n ++ p)) = h.
Proof.
  intros Hh. unfold revHash, byteHash. cbn [value_].
  rewrite bool_decide_eq_false_2 by (destruct h; [done|by simpl]).
  by apply take_app_length'.
Qed.

(** *** Facts about the embedded form *)

Definition is_embedded (id : ObjectId) : bool :=
  bool_decide (length id = S RAW_SIZE) &&
  bool_decide (id !! 0%nat = Some TYPE_HG_ID_NO_PATH).

Lemma tryParse_short (id : ObjectId) :
  (length id ≤ RAW_SIZE)%nat → tryParseEmbeddedProxyHash id = Ok None.
Proof.
  intros Hlen. unfold tryParseEmbeddedProxyHash.
  by destruct (Nat.ltb_spec RAW_SIZE (length id)) as [Hlt|_]; [lia|].
Qed.

Lemma tryParse_unknown_type (id : ObjectId) :
  (RAW_SIZE < length id)%nat → is_embedded id = false →
  tryParseEmbeddedProxyHash id = Throw invalid_argument.
Proof.
  intros Hlen Hshape. unfold tryParseEmbeddedProxyHash.
  destruct (Nat.ltb_spec RAW_SIZE (length id)) as [_|Hge]; [|lia].
  unfold is_embedded in Hshape. by rewrite Hshape.
Qed.

Lemma tryParse_embedded (id : ObjectId) :
  is_embedded id = true →
  tryParseEmbeddedProxyHash id =
    Ok (Some (mkHgProxyHash (take RAW_SIZE (drop 1 id) ++ writeBE32 0 ++ []))).
Proof.
  intros Hshape. unfold tryParseEmbeddedProxyHash.
  pose proof Hshape as Hshape'. unfold is_embedded in Hshape'.
  apply andb_prop in Hshape' as [Hlen _]. apply bool_decide_eq_true in Hlen.
  destruct (Nat.ltb_spec RAW_SIZE (length id)) as [_|Hge]; [|lia].
  unfold is_embedded in Hshape. rewrite Hshape.
  unfold fromPath, prepareToStoreLegacy.
  by rewrite serialize_ok.
Qed.

Lemma is_embedded_make (h : Hash20) :
  length h = RAW_SIZE → is_embedded (makeEmbeddedProxyHash h) = true.
Proof.
  intros Hh. unfold is_embedded, makeEmbeddedProxyHash. simpl.
  rewrite Hh. by rewrite !bool_decide_eq_true_2.
Qed.

Lemma load_embedded (ls : LocalStore) (h : Hash20) :
  length h = RAW_SIZE →
  load ls (makeEmbeddedProxyHash h) =
    ([], Ok (mkHgProxyHash (h ++ writeBE32 0 ++ []))).
Proof.
  intros Hh. unfold load.
  rewrite tryParse_embedded by by apply is_embedded_make.
  unfold makeEmbeddedProxyHash. simpl drop. rewrite drop_0.
  by rewrite take_ge by lia.
Qed.

(** *** Round trips *)

Lemma legacy_roundtrip_helper (p : RelativePath) (h : Hash20) :
  length h = RAW_SIZE → Z.of_nat (length p) <= UINT32_MAX →
  let buf := h ++ writeBE32 (Z.of_nat (length p)) ++ p in
  prepareToStoreLegacy p h = Ok (SHA1.sha1 buf, buf) ∧
  ∀ ls : LocalStore, ls !! SHA1.sha1 buf = Some buf →
    (load ls (SHA1.sha1 buf)).2 = Ok (mkHgProxyHash buf).
Proof.
  intros Hh Hp buf. split.
  - unfold prepareToStoreLegacy. by rewrite serialize_ok.
  - intros ls Hget. unfold load.
    rewrite tryParse_short by by rewrite SHA1.length_sha1.
    rewrite Hget. cbn [snd extractValue mbind result_bind].
    unfold fromValue. subst buf. by rewrite validate_serialized.
Qed.

(** C1. Legacy encoding followed by decoding is the identity: for a 20-byte
    revision hash [h] and a path [p] whose length fits the 32-bit length
    field, the stored bytes are [h ++ big_endian_u32 (len p) ++ p], the object
    id is their SHA-1, and [load] on that id, with a store that returns the
    stored bytes, asks the store once and yields a proxy hash whose [path] is
    [p] and whose [revHash] is [h].  The path need not be non-empty. *)
Theorem legacy_encode_decode_roundtrip (p : RelativePath) (h : Hash20) :
  length h = RAW_SIZE → Z.of_nat (length p) <= UINT32_MAX →
  let buf := h ++ writeBE32 (Z.of_nat (length p)) ++ p in
  let id := SHA1.sha1 buf in
  prepareToStoreLegacy p h = Ok (id, buf) ∧
  (∀ batch : WriteBatch,
      store p h (Some batch) = Ok (id, Some (batch ++ [(id, buf)]))) ∧
  (∀ ls : LocalStore, ls !! id = Some buf →
      ∃ ph, load ls id = ([id], Ok ph) ∧ path ph = p ∧ revHash ph = h).
Proof.
  intros Hh Hp buf id.
  assert (Hprep : prepareToStoreLegacy p h = Ok (id, buf)).
  { unfold prepareToStoreLegacy. by rewrite serialize_ok. }
  split; [done|]. split.
  - intros batch. unfold store. by rewrite Hprep.
  - intros ls Hget. exists (mkHgProxyHash buf). split; [|split].
    + unfold load. rewrite tryParse_short
        by (subst id; by rewrite SHA1.length_sha1).
      rewrite Hget. cbn [extractValue mbind result_bind].
      unfold fromValue. subst buf. by rewrite validate_serialized.
    + by apply path_serialized.
    + by apply revHash_serialized.
Qed.

Definition example_path : RelativePath := ["a"; "/"; "b"]%byte.
Definition example_hash : Hash20 := zeros 19 ++ ["002"%byte].
Definition example_buf : bytes :=
  example_hash ++ writeBE32 3 ++ example_path.

Lemma legacy_encode_decode_roundtrip_witness :
  ∃ ph, load {[ SHA1.sha1 example_buf := example_buf ]} (SHA1.sha1 example_buf)
          = ([SHA1.sha1 example_buf], Ok ph)
        ∧ path ph = example_path ∧ revHash ph = example_hash.
Proof.
  destruct (legacy_encode_decode_roundtrip example_path example_hash)
    as (_ & _ & Hload).
  - reflexivity.
  - vm_compute. discriminate.
  - apply Hload. apply lookup_singleton_eq.
Defined.

(** [load] accepts exactly the stored values whose length word agrees with
    the bytes that follow it. *)
Definition well_formed (value : bytes) : bool :=
  bool_decide (RAW_SIZE + 4 ≤ length value)%nat &&
  bool_decide (Z.of_nat (length (drop (RAW_SIZE + 4) value))
               = readBE32 (drop RAW_SIZE value)).

Lemma validate_spec (id : ObjectId) (value : bytes) :
  validate id value = if well_formed value then Ok () else Throw length_error.
Proof.
  unfold validate, well_formed.
  destruct (Nat.ltb_spec (length value) (RAW_SIZE + 4)) as [Hlt|Hge].
  - by rewrite bool_decide_eq_false_2 by lia.
  - rewrite (bool_decide_eq_true_2 (RAW_SIZE + 4 ≤ _)%nat) by done.
    rewrite drop_drop. cbn [andb].
    destruct (decide (Z.of_nat (length (drop (RAW_SIZE + 4) value))
                      = readBE32 (drop RAW_SIZE value))) as [Heq|Hne].
    + rewrite bool_decide_eq_false_2 by (intros Hn; by apply Hn).
      by rewrite bool_decide_eq_true_2.
    + rewrite bool_decide_eq_true_2 by done.
      by rewrite bool_decide_eq_false_2.
Qed.

(** C3, as the code has it.  [load] tries the embedded shape first (length 21
    and first byte [0x01]) and answers it without the store.  An object id
    longer than 20 bytes that is not of that shape is rejected with
    [std::invalid_argument], again without the store.  Every object id of at
    most 20 bytes is looked up, once: a missing entry fails with the
    exception of [StoreResult::extractValue], a present one is validated and
    fails with [std::length_error] unless it holds at least 24 bytes and the
    bytes after the length word are as many as the word declares. *)
Theorem load_decision_procedure (ls : LocalStore) (id : ObjectId) :
  (is_embedded id = true →
     ∃ ph, load ls id = ([], Ok ph) ∧ path ph = []
           ∧ revHash ph = take RAW_SIZE (drop 1 id)) ∧
  (is_embedded id = false → (RAW_SIZE < length id)%nat →
     load ls id = ([], Throw invalid_argument)) ∧
  ((length id ≤ RAW_SIZE)%nat →
     (load ls id).1 = [id] ∧
     (ls !! id = None → (load ls id).2 = Throw value_not_present) ∧
     (∀ value, ls !! id = Some value →
        (load ls id).2 = if well_formed value
                         then Ok (mkHgProxyHash value)
                         else Throw length_error)).
Proof.
  split; [|split].
  - intros Hshape. eexists. unfold load. rewrite tryParse_embedded by done.
    split; [done|].
    assert (Hlen : length (take RAW_SIZE (drop 1 id)) = RAW_SIZE).
    { unfold is_embedded in Hshape. apply andb_prop in Hshape as [Hl _].
      apply bool_decide_eq_true in Hl.
      rewrite length_take, length_drop. lia. }
    split; [by apply path_serialized | by apply revHash_serialized].
  - intros Hshape Hlen. unfold load. by rewrite tryParse_unknown_type.
  - intros Hlen. unfold load. rewrite tryParse_short by done.
    split; [done|]. split.
    + by intros ->.
    + intros value ->. cbn [snd extractValue mbind result_bind].
      unfold fromValue. rewrite validate_spec.
      by destruct (well_formed value).
Qed.

(** An object id of 21 bytes whose tag is [0x02], and a store that holds a
    well-formed entry under it. *)
Definition unknown_type_id : ObjectId := "002"%byte :: zeros 20.
Definition unknown_type_store : LocalStore :=
  {[ unknown_type_id := zeros 24 ]}.

Lemma load_decision_procedure_witness :
  load unknown_type_store unknown_type_id = ([], Throw invalid_argument) ∧
  (load ∅ (zeros 20)).2 = Throw value_not_present.
Proof.
  split.
  - apply (load_decision_procedure unknown_type_store unknown_type_id).
    + reflexivity.
    + vm_compute. lia.
  - apply (load_decision_procedure ∅ (zeros 20)).
    + vm_compute. lia.
    + apply lookup_empty.
Defined.

(** C3 as stated fails: [unknown_type_id] is not of the embedded shape, the
    store has a well-formed value for it, and still [load] never asks the
    store and throws [std::invalid_argument]. *)
Lemma load_unknown_type_skips_lookup :
  is_embedded unknown_type_id = false ∧
  unknown_type_store !! unknown_type_id = Some (zeros 24) ∧
  well_formed (zeros 24) = true ∧
  load unknown_type_store unknown_type_id = ([], Throw invalid_argument).
Proof.
  split; [reflexivity|]. split; [apply lookup_singleton_eq|].
  split; [reflexivity|].
  unfold load. rewrite tryParse_unknown_type; [done| |reflexivity].
  vm_compute. lia.
Qed.

(** C4. For a 20-byte revision hash [h], the embedded object id (what
    [store] returns for the empty path when given no write batch) has length
    21, is the byte [0x01] followed by [h], and [load] decodes it to the empty
    path and [h] with no request to the store, whatever the store holds. *)
Theorem embedded_encode_decode (h : Hash20) :
  length h = RAW_SIZE →
  let id := makeEmbeddedProxyHash h in
  store [] h None = Ok (id, None) ∧
  length id = 21%nat ∧
  id = "001"%byte :: h ∧
  (∀ ls : LocalStore,
      ∃ ph, load ls id = ([], Ok ph) ∧ path ph = [] ∧ revHash ph = h).
Proof.
  intros Hh id. split; [done|]. split.
  { subst id. unfold makeEmbeddedProxyHash. cbn. by rewrite Hh. }
  split; [done|].
  intros ls. eexists. split; [by apply load_embedded|].
  split; [by apply path_serialized | by apply revHash_serialized].
Qed.

Lemma embedded_encode_decode_witness :
  length (makeEmbeddedProxyHash example_hash) = 21%nat ∧
  ∃ ph, load unknown_type_store (makeEmbeddedProxyHash example_hash) = ([], Ok ph)
        ∧ path ph = [] ∧ revHash ph = example_hash.
Proof.
  destruct (embedded_encode_decode example_hash eq_refl)
    as (_ & Hlen & _ & Hload).
  split; [exact Hlen | apply Hload].
Defined.

(** C10. [store] without a write batch ignores its path argument: for any
    path [p] and 20-byte [h] it returns the embedded id [0x01 :: h], and
    decoding that id gives the empty path (so not [p], when [p] is not empty)
    and [h]. *)
Theorem store_without_batch_discards_path (p : RelativePath) (h : Hash20) :
  length h = RAW_SIZE →
  store p h None = Ok ("001"%byte :: h, None) ∧
  (∀ ls : LocalStore,
      ∃ ph, load ls ("001"%byte :: h) = ([], Ok ph)
            ∧ path ph = [] ∧ revHash ph = h ∧ (p ≠ [] → path ph ≠ p)).
Proof.
  intros Hh. split; [done|].
  intros ls. exists (mkHgProxyHash (h ++ writeBE32 0 ++ [])).
  split; [by apply (load_embedded ls h)|].
  rewrite path_serialized, revHash_serialized by done.
  split; [done|]. split; [done|]. by intros Hp Heq.
Qed.

Lemma store_without_batch_discards_path_witness :
  store example_path example_hash None = Ok ("001"%byte :: example_hash, None) ∧
  ∃ ph, load ∅ ("001"%byte :: example_hash) = ([], Ok ph)
        ∧ path ph = [] ∧ revHash ph = example_hash
        ∧ (example_path ≠ [] → path ph ≠ example_path).
Proof.
  destruct (store_without_batch_discards_path example_path example_hash eq_refl)
    as (Hstore & Hload).
  split; [exact Hstore | apply Hload].
Defined.

(** *** More about proxy hashes *)

(** [operator==]: equality of the stored bytes. *)
Definition eqb (a b : HgProxyHash) : bool :=
  bool_decide (value_ a = value_ b).

Lemma Z_of_byte_inj (a b : byte) : Z_of_byte a = Z_of_byte b → a = b.
Proof.
  unfold Z_of_byte. intros Heq. apply N2Z.inj in Heq.
  pose proof (Byte.of_to_N a) as Ha. rewrite Heq, Byte.of_to_N in Ha.
  by injection Ha.
Qed.

Lemma readBE32_inj (a b : bytes) :
  length a = 4%nat → length b = 4%nat → readBE32 a = readBE32 b → a = b.
Proof.
  intros Ha Hb.
  destruct a as [|a0 [|a1 [|a2 [|a3 [|]]]]]; try done.
  destruct b as [|b0 [|b1 [|b2 [|b3 [|]]]]]; try done.
  unfold readBE32, be_value. cbn [take foldl]. intros Heq.
  pose proof (Z_of_byte_range a0). pose proof (Z_of_byte_range a1).
  pose proof (Z_of_byte_range a2). pose proof (Z_of_byte_range a3).
  pose proof (Z_of_byte_range b0). pose proof (Z_of_byte_range b1).
  pose proof (Z_of_byte_range b2). pose proof (Z_of_byte_range b3).
  assert (Z_of_byte a0 = Z_of_byte b0 ∧ Z_of_byte a1 = Z_of_byte b1 ∧
          Z_of_byte a2 = Z_of_byte b2 ∧ Z_of_byte a3 = Z_of_byte b3)
    as (E0 & E1 & E2 & E3) by lia.
  by rewrite (Z_of_byte_inj _ _ E0), (Z_of_byte_inj _ _ E1),
             (Z_of_byte_inj _ _ E2), (Z_of_byte_inj _ _ E3).
Qed.

(** The legacy serialization tells paths and revisions apart: two pairs
    with 20-byte hashes that serialize to the same bytes are the same pair. *)
Theorem serialize_injective (p p' : RelativePath) (h h' : Hash20) (buf : bytes) :
  length h = RAW_SIZE → length h' = RAW_SIZE →
  serialize p h = Ok buf → serialize p' h' = Ok buf →
  p = p' ∧ h = h'.
Proof.
  intros Hh Hh' Hs Hs'. unfold serialize in Hs, Hs'.
  destruct (Z.of_nat (length p) <=? UINT32_MAX); [|done].
  destruct (Z.of_nat (length p') <=? UINT32_MAX); [|done].
  injection Hs as <-. injection Hs' as Heq.
  apply app_inj_1 in Heq as [-> Heq]; [|congruence].
  by injection Heq as _ _ _ _ ->.
Qed.

Lemma serialize_injective_witness :
  example_path = example_path ∧ example_hash = example_hash.
Proof.
  apply (serialize_injective example_path example_path example_hash
           example_hash example_buf); reflexivity.
Defined.

(** A value that passed [validate] is its hash, its length word and its
    path, in this order. *)
Lemma well_formed_split (value : bytes) :
  well_formed value = true →
  value = take RAW_SIZE value ++ take 4 (drop RAW_SIZE value)
          ++ drop (RAW_SIZE + 4) value
  ∧ length (take RAW_SIZE value) = RAW_SIZE
  ∧ length (take 4 (drop RAW_SIZE value)) = 4%nat
  ∧ readBE32 (take 4 (drop RAW_SIZE value))
    = Z.of_nat (length (drop (RAW_SIZE + 4) value)).
Proof.
  unfold well_formed. intros [Hlen Hword]%andb_prop.
  apply bool_decide_eq_true in Hlen. apply bool_decide_eq_true in Hword.
  split; [|split; [|split]].
  - rewrite <- (take_drop RAW_SIZE value) at 1. f_equal.
    rewrite <- (take_drop 4 (drop RAW_SIZE value)) at 1. f_equal.
    by rewrite drop_drop.
  - rewrite length_take. lia.
  - rewrite length_take, length_drop. lia.
  - unfold readBE32 in *. rewrite take_take, Nat.min_id. done.
Qed.

(** [operator==] on validated proxy hashes is equality of path and
    revision: the length word carries nothing of its own. *)
Theorem validated_equal_iff_same_path_and_revision (a b : HgProxyHash) :
  well_formed (value_ a) = true → well_formed (value_ b) = true →
  (eqb a b = true ↔ path a = path b ∧ revHash a = revHash b).
Proof.
  intros Ha Hb. unfold eqb. split.
  - intros Heq%bool_decide_eq_true. unfold path, revHash, byteHash.
    by rewrite Heq.
  - intros [Hp Hr]. apply bool_decide_eq_true_2.
    destruct (well_formed_split _ Ha) as (Hva & Hla1 & Hla2 & Hwa).
    destruct (well_formed_split _ Hb) as (Hvb & Hlb1 & Hlb2 & Hwb).
    assert (Hna : value_ a ≠ []).
    { intros Hn. rewrite Hn in Hla1. done. }
    assert (Hnb : value_ b ≠ []).
    { intros Hn. rewrite Hn in Hlb1. done. }
    unfold path, revHash, byteHash in Hp, Hr.
    rewrite !bool_decide_eq_false_2 in Hp, Hr by done.
    rewrite Hva, Hvb, Hr, Hp. do 2 f_equal.
    apply readBE32_inj; [done..|]. by rewrite Hwa, Hwb, Hp.
Qed.

Lemma validated_equal_iff_same_path_and_revision_witness :
  eqb (mkHgProxyHash example_buf) (mkHgProxyHash example_buf) = true ↔
  path (mkHgProxyHash example_buf) = path (mkHgProxyHash example_buf) ∧
  revHash (mkHgProxyHash example_buf) = revHash (mkHgProxyHash example_buf).
Proof.
  apply (validated_equal_iff_same_path_and_revision
           (mkHgProxyHash example_buf) (mkHgProxyHash example_buf));
    reflexivity.
Defined.

(** [sha1()] gives back the object id under which a legacy proxy hash is
    stored; and the default proxy hash, whose value is empty, answers
    [path], [revHash] and [sha1] like the proxy hash of the empty path and
    the zero revision, without being equal to it. *)
Theorem sha1_is_the_legacy_object_id (p : RelativePath) (h : Hash20) :
  length h = RAW_SIZE → Z.of_nat (length p) <= UINT32_MAX →
  (∃ ph id buf,
      fromPath p h = Ok ph ∧ prepareToStoreLegacy p h = Ok (id, buf) ∧
      sha1 ph = id ∧
      ∀ ls : LocalStore, ls !! id = Some buf → (load ls id).2 = Ok ph) ∧
  (∃ zero,
      fromPath [] kZeroHash = Ok zero ∧
      path (mkHgProxyHash []) = path zero ∧
      revHash (mkHgProxyHash []) = revHash zero ∧
      sha1 (mkHgProxyHash []) = sha1 zero ∧
      eqb (mkHgProxyHash []) zero = false).
Proof.
  intros Hh Hp. split.
  - destruct (legacy_roundtrip_helper p h Hh Hp) as (Hprep & Hload).
    eexists _, _, _. unfold fromPath. rewrite Hprep.
    split; [done|]. split; [done|]. split; [|done].
    unfold sha1. cbn [value_].
    rewrite bool_decide_eq_false_2; [done|]. by destruct h.
  - exists (mkHgProxyHash (zeros 24)). by vm_compute.
Qed.

Lemma sha1_is_the_legacy_object_id_witness :
  ∃ ph id buf,
    fromPath example_path example_hash = Ok ph ∧
    prepareToStoreLegacy example_path example_hash = Ok (id, buf) ∧
    sha1 ph = id ∧
    ∀ ls : LocalStore, ls !! id = Some buf → (load ls id).2 = Ok ph.
Proof.
  destruct (sha1_is_the_legacy_object_id example_path example_hash)
    as [Hlegacy _].
  - reflexivity.
  - vm_compute. discriminate.
  - exact Hlegacy.
Defined.

(** *** Batches *)

(** The proxy hash an embedded id stands for. *)
Definition embedded_of (id : ObjectId) : HgProxyHash :=
  mkHgProxyHash (take RAW_SIZE (drop 1 id) ++ writeBE32 0 ++ []).

Definition is_short (id : ObjectId) : bool :=
  bool_decide (length id ≤ RAW_SIZE)%nat.

Lemma id_cases (id : ObjectId) :
  (is_short id = true ∧ is_embedded id = false) ∨
  (is_short id = false ∧ is_embedded id = true) ∨
  (is_short id = false ∧ is_embedded id = false ∧ (RAW_SIZE < length id)%nat).
Proof.
  unfold is_short, is_embedded.
  destruct (decide (length id ≤ RAW_SIZE)%nat) as [Hle|Hgt].
  - left. rewrite bool_decide_eq_true_2 by done.
    rewrite (bool_decide_eq_false_2 (length id = S RAW_SIZE)) by lia. done.
  - right. rewrite (bool_decide_eq_false_2 (length id ≤ RAW_SIZE)%nat) by done.
    destruct (_ && _); [by left|]. right. repeat split; lia.
Qed.

Lemma partitionEmbedded_ok (ids : list ObjectId) :
  Forall (λ id, is_short id || is_embedded id = true) ids →
  partitionEmbedded ids
  = Ok (map embedded_of (filter (λ id, is_embedded id = true) ids),
        filter (λ id, is_short id = true) ids).
Proof.
  induction 1 as [|id ids Hid _ IH]; [done|].
  cbn [partitionEmbedded]. rewrite IH.
  destruct (id_cases id) as [[Hs He]|[[Hs He]|(Hs & He & _)]];
    [| |by rewrite Hs, He in Hid].
  - rewrite tryParse_short by by apply bool_decide_eq_true in Hs.
    cbn [mbind result_bind].
    rewrite filter_cons_False by by rewrite He.
    by rewrite filter_cons_True by done.
  - rewrite tryParse_embedded by done. cbn [mbind result_bind].
    rewrite filter_cons_True by done.
    by rewrite filter_cons_False by by rewrite Hs.
Qed.

Lemma partitionEmbedded_throw (ids : list ObjectId) :
  Exists (λ id, (RAW_SIZE < length id)%nat ∧ is_embedded id = false) ids →
  partitionEmbedded ids = Throw invalid_argument.
Proof.
  induction ids as [|id ids IH]; intros Hbad; [by apply Exists_nil in Hbad|].
  cbn [partitionEmbedded].
  destruct (id_cases id) as [[Hs He]|[[Hs He]|(Hs & He & Hlen)]].
  - apply Exists_cons in Hbad as [[Hlen _]|Hbad].
    { apply bool_decide_eq_true in Hs. lia. }
    rewrite tryParse_short by by apply bool_decide_eq_true in Hs.
    cbn [mbind result_bind]. by rewrite IH.
  - apply Exists_cons in Hbad as [[_ Hne]|Hbad]; [congruence|].
    rewrite tryParse_embedded by done. cbn [mbind result_bind]. by rewrite IH.
  - by rewrite tryParse_unknown_type.
Qed.

Lemma mapM_result_app {A B} (g : A → result B) (l1 l2 : list A) :
  mapM g (l1 ++ l2) = (a ← mapM g l1; b ← mapM g l2; Ok (a ++ b)).
Proof.
  induction l1 as [|x l1 IH]; cbn [app mapM].
  - by destruct (mapM g l2).
  - destruct (g x); [|done]. cbn [mbind result_bind]. rewrite IH.
    destruct (mapM g l1); [|done]. cbn [mbind result_bind].
    by destruct (mapM g l2).
Qed.

Lemma mapM_result_ext {A B} (g g' : A → result B) (l : list A) :
  Forall (λ x, g x = g' x) l → mapM g l = mapM g' l.
Proof.
  induction 1 as [|x l Hx _ IH]; [done|]. cbn [mapM]. by rewrite Hx, IH.
Qed.

Lemma load_embedded_id (ls : LocalStore) (id : ObjectId) :
  is_embedded id = true → load ls id = ([], Ok (embedded_of id)).
Proof. intros He. unfold load. by rewrite tryParse_embedded. Qed.

Lemma mapM_load_embedded (ls : LocalStore) (ids : list ObjectId) :
  Forall (λ id, is_embedded id = true) ids →
  mapM (λ id, (load ls id).2) ids = Ok (map embedded_of ids).
Proof.
  induction 1 as [|id ids Hid _ IH]; [done|]. cbn [mapM map].
  rewrite (load_embedded_id ls id Hid), IH. done.
Qed.

Lemma load_short (ls : LocalStore) (id : ObjectId) :
  is_short id = true → (load ls id).2 = fromStoreResult id (ls !! id).
Proof.
  intros Hs%bool_decide_eq_true. unfold load. by rewrite tryParse_short.
Qed.

(** [getBatch] asks the store at most once, for exactly the ids of at most
    20 bytes in their order, and not at all when there are none or when some
    id is longer than 20 bytes without being embedded, in which case it
    throws [std::invalid_argument].  Its result is what [load] gives for
    each id, the embedded ids first and then the others. *)
Theorem getBatch_is_one_request (ls : LocalStore) (ids : list ObjectId) :
  (Exists (λ id, (RAW_SIZE < length id)%nat ∧ is_embedded id = false) ids →
   getBatch ls ids = ([], Throw invalid_argument)) ∧
  (Forall (λ id, is_short id || is_embedded id = true) ids →
   let short := filter (λ id, is_short id = true) ids in
   let embedded := filter (λ id, is_embedded id = true) ids in
   getBatch ls ids
   = (if short is [] then [] else [short],
      mapM (λ id, (load ls id).2) (embedded ++ short))).
Proof.
  split.
  - intros Hbad. unfold getBatch. by rewrite partitionEmbedded_throw.
  - intros Hok short embedded. unfold getBatch.
    rewrite partitionEmbedded_ok by done. fold short embedded.
    rewrite mapM_result_app.
    rewrite (mapM_load_embedded ls embedded)
      by (subst embedded; apply list.Forall_forall;
          by intros id [? _]%list_elem_of_filter).
    cbn [mbind result_bind].
    rewrite (mapM_result_ext (λ id, (load ls id).2)
               (λ k, fromStoreResult k (ls !! k)) short).
    + destruct short as [|k short']; [|done].
      cbn [mapM mret result_ret mbind result_bind]. by rewrite app_nil_r.
    + subst short. apply list.Forall_forall.
      intros id [Hs _]%list_elem_of_filter. by apply load_short.
Qed.

Lemma getBatch_is_one_request_witness :
  getBatch unknown_type_store [unknown_type_id] = ([], Throw invalid_argument) ∧
  getBatch unknown_type_store
    [makeEmbeddedProxyHash example_hash; zeros 20; zeros 3]
  = ([[zeros 20; zeros 3]],
     mapM (λ id, (load unknown_type_store id).2)
          [makeEmbeddedProxyHash example_hash; zeros 20; zeros 3]).
Proof.
  split.
  - apply (getBatch_is_one_request unknown_type_store [unknown_type_id]).
    apply Exists_cons_hd. split; [vm_compute; lia | reflexivity].
  - apply (getBatch_is_one_request unknown_type_store
             [makeEmbeddedProxyHash example_hash; zeros 20; zeros 3]).
    by repeat constructor.
Defined.

End HgProxyHash.

(** ** TakeoverData.cpp *)

Module Takeover.

(** *** Constants of TakeoverData.h

    Modelled from the spec: TakeoverData.h is not among the sources.  The
    specification gives the protocol versions (1, 3 and 4, with 0 reserved as
    never supported) and the message types ([ERROR = 1], [MOUNTS = 2],
    [PING = 3]); the capabilities are distinct bits of a [uint64_t]. *)

Definition kTakeoverProtocolVersionNeverSupported : Z := 0.
Definition kTakeoverProtocolVersionOne : Z := 1.
Definition kTakeoverProtocolVersionThree : Z := 3.
Definition kTakeoverProtocolVersionFour : Z := 4.

Definition CUSTOM_SERIALIZATION : Z := Z.shiftl 1 0.
Definition FUSE : Z := Z.shiftl 1 1.
Definition THRIFT_SERIALIZATION : Z := Z.shiftl 1 2.
Definition PING : Z := Z.shiftl 1 3.

Definition MessageType_ERROR : Z := 1.
Definition MessageType_MOUNTS : Z := 2.
Definition MessageType_PING : Z := 3.

Definition kHeaderLength : nat := 4.

Definition kSupportedTakeoverVersions : gset Z :=
  {[ kTakeoverProtocolVersionOne;
     kTakeoverProtocolVersionThree;
     kTakeoverProtocolVersionFour ]}.

(** *** Version negotiation *)

(** One iteration of the loop of [computeCompatibleVersion]. *)
Definition considerVersion (supported : gset Z) (best : option Z) (version : Z)
  : option Z :=
  if match best with Some b => bool_decide (b > version) | None => false end
  then best                                   (* no better than the current best *)
  else if bool_decide (version ∉ supported)
  then best                                   (* not supported *)
  else Some version.

(** A [std::set<int32_t>] is iterated in ascending order. *)
Definition iteration_order (s : gset Z) : list Z := merge_sort Z.le (elements s).

Definition computeCompatibleVersion (versions supported : gset Z) : option Z :=
  foldl (considerVersion supported) None (iteration_order versions).

Definition versionToCapabilites (version : Z) : result Z :=
  if decide (version = kTakeoverProtocolVersionNeverSupported) then Ok 0
  else if decide (version = kTakeoverProtocolVersionOne)
  then Ok (Z.lor CUSTOM_SERIALIZATION FUSE)
  else if decide (version = kTakeoverProtocolVersionThree)
  then Ok (Z.lor FUSE THRIFT_SERIALIZATION)
  else if decide (version = kTakeoverProtocolVersionFour)
  then Ok (Z.lor (Z.lor FUSE THRIFT_SERIALIZATION) PING)
  else Throw runtime_error.

Definition capabilitesToVersion (capabilities : Z) : result Z :=
  if decide (capabilities = 0)
  then Ok kTakeoverProtocolVersionNeverSupported
  else if decide (capabilities = Z.lor CUSTOM_SERIALIZATION FUSE)
  then Ok kTakeoverProtocolVersionOne
  else if decide (capabilities = Z.lor FUSE THRIFT_SERIALIZATION)
  then Ok kTakeoverProtocolVersionThree
  else if decide (capabilities = Z.lor (Z.lor FUSE THRIFT_SERIALIZATION) PING)
  then Ok kTakeoverProtocolVersionFour
  else Throw runtime_error.

(** *** Reading an [IOBuf] through a [folly::io::Cursor]

    A read consumes a prefix of the remaining bytes or throws
    [std::out_of_range]. *)

Definition Cursor (A : Type) : Type := bytes → result (A * bytes).

#[export] Instance cursor_ret : MRet Cursor := λ A a rest, Ok (a, rest).

#[export] Instance cursor_bind : MBind Cursor := λ A B k c buf,
  match c buf with
  | Ok (a, rest) => k a rest
  | Throw e => Throw e
  end.

Definition lift {A} (r : result A) : Cursor A := λ rest,
  match r with
  | Ok a => Ok (a, rest)
  | Throw e => Throw e
  end.

Definition pull (n : nat) : Cursor bytes := λ buf,
  if (length buf <? n)%nat then Throw out_of_range
  else Ok (take n buf, drop n buf).

Definition readBE_u32 : Cursor Z := λ buf,
  if (length buf <? 4)%nat then Throw out_of_range
  else Ok (readBE32 buf, drop 4 buf).

Definition readFixedString (len : Z) : Cursor bytes := pull (Z.to_nat len).

(** [Appender::writeBE<uint32_t>(n)] for a [size_t] [n]. *)
Definition writeBE_u32 (n : Z) : bytes := writeBE32 (u32 n).

Definition writeSize (n : nat) : bytes := writeBE_u32 (Z.of_nat n).

(** A descriptor held by a [folly::File]; [None] is the empty
    [folly::File{}], which is also what a moved-from file is. *)
Abbreviation File := (option Z) (only parsing).

Section Codec.

(** What the codec takes from outside this file: the sanity check of an
    [AbsolutePath] (PathFuncs.h), the size of the kernel's [fuse_init_out],
    the Thrift structure [SerializedInodeMap] and the [CompactSerializer]
    for it and for [SerializedTakeoverData]. *)
Context (absolutePathCheck : bytes → bool).
Context (sizeof_fuse_init_out : nat).
Context {SerializedInodeMap : Type}.

(** An [AbsolutePath] is a string that passed the sanity check. *)
Record AbsolutePath := mkAbsolutePath {
  stringPiece : bytes;
  stringPiece_ok : Is_true (absolutePathCheck stringPiece)
}.

(** The constructor [AbsolutePath{string}], which throws on a string that
    fails the check. *)
Definition toAbsolutePath (s : bytes) : result AbsolutePath :=
  match decide (Is_true (absolutePathCheck s)) with
  | left ok => Ok (mkAbsolutePath s ok)
  | right _ => Throw domain_error
  end.

(** The kernel's [fuse_init_out], as the [sizeof(fuse_init_out)] bytes of its
    object representation. *)
Record fuse_init_out := mk_fuse_init_out {
  rawBytes : bytes;
  rawBytes_length : length rawBytes = sizeof_fuse_init_out
}.

(** [*reinterpret_cast<const fuse_init_out*>(s.data())]: the first
    [sizeof(fuse_init_out)] bytes of the string.  The source reads past the
    end of a shorter string; the model reads zero bytes there. *)
Program Definition fuse_init_out_of_string (s : bytes) : fuse_init_out :=
  mk_fuse_init_out (take sizeof_fuse_init_out (s ++ zeros sizeof_fuse_init_out)) _.
Next Obligation.
  intros s. rewrite length_take, length_app. unfold zeros.
  rewrite length_replicate. lia.
Qed.

Record MountInfo := mkMountInfo {
  mountPath : AbsolutePath;
  stateDirectory : AbsolutePath;
  bindMounts : list AbsolutePath;
  fuseFD : File;
  connInfo : fuse_init_out;
  inodeMap : SerializedInodeMap
}.

Record TakeoverData := mkTakeoverData {
  lockFile : File;
  thriftSocket : File;
  mountPoints : list MountInfo
}.

(** [UnixSocket::Message]: the body and the descriptors sent with it. *)
Record Message := mkMessage {
  data : bytes;
  files : list File
}.

(** The Thrift structures of takeover.thrift, as TakeoverData.cpp uses
    them: a union of a mount list and an error string, empty by default. *)
Record SerializedMountInfo := mkSerializedMountInfo {
  mountPath_ref : bytes;
  stateDirectory_ref : bytes;
  bindMountPaths_ref : list bytes;
  connInfo_ref : bytes;
  inodeMap_ref : SerializedInodeMap
}.

Inductive SerializedTakeoverData :=
| Type_EMPTY
| Type_mounts (mounts : list SerializedMountInfo)
| Type_errorReason (errorReason : bytes).

Context (serializeInodeMap : SerializedInodeMap → bytes).
Context (deserializeInodeMap : bytes → result SerializedInodeMap).
Context (compactSerialize : SerializedTakeoverData → bytes).
Context (compactDeserialize : bytes → result SerializedTakeoverData).

(** *** The custom dialect *)

Definition writeString (s : bytes) : bytes := writeSize (length s) ++ s.

Definition serializeCustomMount (mount : MountInfo) : bytes :=
  writeString (stringPiece (mountPath mount))
  ++ writeString (stringPiece (stateDirectory mount))
  ++ writeSize (length (bindMounts mount))
  ++ concat (map (λ bindMount, writeString (stringPiece bindMount))
                 (bindMounts mount))
  ++ rawBytes (connInfo mount)
  ++ writeBE_u32 0
  ++ writeString (serializeInodeMap (inodeMap mount)).

Definition serializeCustom (d : TakeoverData) : bytes :=
  writeBE_u32 MessageType_MOUNTS
  ++ writeSize (length (mountPoints d))
  ++ concat (map serializeCustomMount (mountPoints d)).

Fixpoint readBindMounts (numBindMounts : nat) : Cursor (list AbsolutePath) :=
  match numBindMounts with
  | O => mret []
  | S n =>
      bindPathLength ← readBE_u32;
      bindPath ← readFixedString bindPathLength;
      bindMount ← lift (toAbsolutePath bindPath);
      rest ← readBindMounts n;
      mret (bindMount :: rest)
  end.

Definition readMount : Cursor MountInfo :=
  pathLength ← readBE_u32;
  mountPath ← readFixedString pathLength;
  clientPathLength ← readBE_u32;
  stateDirectory ← readFixedString clientPathLength;
  numBindMounts ← readBE_u32;
  bindMounts ← readBindMounts (Z.to_nat numBindMounts);
  connInfo ← pull sizeof_fuse_init_out;
  fileHandleMapLength ← readBE_u32;
  _ ← readFixedString fileHandleMapLength;
  inodeMapLength ← readBE_u32;
  inodeMapBuffer ← readFixedString inodeMapLength;
  inodeMap ← lift (deserializeInodeMap inodeMapBuffer);
  mountPath ← lift (toAbsolutePath mountPath);
  stateDirectory ← lift (toAbsolutePath stateDirectory);
  mret (mkMountInfo mountPath stateDirectory bindMounts None
                    (fuse_init_out_of_string connInfo) inodeMap).

Fixpoint readMounts (numMounts : nat) : Cursor (list MountInfo) :=
  match numMounts with
  | O => mret []
  | S n => mount ← readMount; rest ← readMounts n; mret (mount :: rest)
  end.

Definition deserializeCustom (buf : bytes) : result TakeoverData :=
  fst <$> (
    messageType ← readBE_u32;
    if bool_decide (messageType ≠ MessageType_ERROR) &&
       bool_decide (messageType ≠ MessageType_MOUNTS)
    then lift (Throw runtime_error)
    else if bool_decide (messageType = MessageType_ERROR) then
      errorTypeLength ← readBE_u32;
      errorType ← readFixedString errorTypeLength;
      errorMessageLength ← readBE_u32;
      errorMessage ← readFixedString errorMessageLength;
      lift (Throw runtime_error)
    else
      numMounts ← readBE_u32;
      mounts ← readMounts (Z.to_nat numMounts);
      mret (mkTakeoverData None None mounts)) buf.

(** *** The Thrift dialect *)

Definition toSerializedMount (mount : MountInfo) : SerializedMountInfo :=
  mkSerializedMountInfo
    (stringPiece (mountPath mount))
    (stringPiece (stateDirectory mount))
    (map stringPiece (bindMounts mount))
    (rawBytes (connInfo mount))
    (inodeMap mount).

(** The first word is the version to advertise, and version 4 is advertised
    as version 3. *)
Definition serializeThrift (protocolCapabilities : Z) (d : TakeoverData)
  : result bytes :=
  versionToAdvertize ← capabilitesToVersion protocolCapabilities;
  let versionToAdvertize :=
    if decide (versionToAdvertize = kTakeoverProtocolVersionFour)
    then kTakeoverProtocolVersionThree
    else versionToAdvertize in
  let serialized := Type_mounts (map toSerializedMount (mountPoints d)) in
  Ok (writeBE_u32 versionToAdvertize ++ compactSerialize serialized).

Definition fromSerializedMount (serializedMount : SerializedMountInfo)
  : result MountInfo :=
  let connInfo := fuse_init_out_of_string (connInfo_ref serializedMount) in
  bindMounts ← mapM toAbsolutePath (bindMountPaths_ref serializedMount);
  mountPath ← toAbsolutePath (mountPath_ref serializedMount);
  stateDirectory ← toAbsolutePath (stateDirectory_ref serializedMount);
  Ok (mkMountInfo mountPath stateDirectory bindMounts None connInfo
                  (inodeMap_ref serializedMount)).

Definition deserializeThrift (buf : bytes) : result TakeoverData :=
  serialized ← compactDeserialize buf;
  match serialized with
  | Type_errorReason _ => Throw runtime_error
  | Type_mounts mounts =>
      mountPoints ← mapM fromSerializedMount mounts;
      Ok (mkTakeoverData None None mountPoints)
  | Type_EMPTY => Ok (mkTakeoverData None None [])
  end.

(** *** Choosing the dialect *)

Definition serializationMethod (protocolCapabilities : Z) : Z :=
  Z.land protocolCapabilities (Z.lor CUSTOM_SERIALIZATION THRIFT_SERIALIZATION).

(** [IOBuf TakeoverData::serialize(uint64_t)]. *)
Definition serialize (protocolCapabilities : Z) (d : TakeoverData) : result bytes :=
  if decide (serializationMethod protocolCapabilities = CUSTOM_SERIALIZATION)
  then Ok (serializeCustom d)
  else if decide (serializationMethod protocolCapabilities = THRIFT_SERIALIZATION)
  then serializeThrift protocolCapabilities d
  else Throw runtime_error.

(** [TakeoverData::deserialize(uint64_t, IOBuf* )]. *)
Definition deserialize (protocolCapabilities : Z) (buf : bytes) : result TakeoverData :=
  if decide (serializationMethod protocolCapabilities = CUSTOM_SERIALIZATION)
  then deserializeCustom buf
  else if decide (serializationMethod protocolCapabilities = THRIFT_SERIALIZATION)
  then deserializeThrift buf
  else Throw runtime_error.

(** [getProtocolVersion]: the version, and the buffer, whose version word is
    trimmed for versions 3 and 4 and kept for version 1. *)
Definition getProtocolVersion (buf : bytes) : result (Z * bytes) :=
  '(messageType, _) ← readBE_u32 buf;
  if bool_decide (messageType = MessageType_ERROR) ||
     bool_decide (messageType = MessageType_MOUNTS)
  then Ok (kTakeoverProtocolVersionOne, buf)
  else if bool_decide (messageType = kTakeoverProtocolVersionThree) ||
          bool_decide (messageType = kTakeoverProtocolVersionFour)
  then Ok (messageType, drop 4 buf)
  else Throw runtime_error.

Definition isPing (buf : bytes) : bool :=
  bool_decide (length buf = 4%nat) &&
  bool_decide (readBE32 buf = MessageType_PING).

Definition serializePing : bytes := writeBE_u32 MessageType_PING.

(** *** Messages with their descriptors *)

Definition setFuseFD (fd : File) (mount : MountInfo) : MountInfo :=
  mkMountInfo (mountPath mount) (stateDirectory mount) (bindMounts mount)
              fd (connInfo mount) (inodeMap mount).

(** [void TakeoverData::serialize(uint64_t, UnixSocket::Message&)]: the
    message after the call, and the takeover data, whose files have been
    moved into the message. *)
Definition serializeMessage (protocolCapabilities : Z) (d : TakeoverData)
    (msg : Message) : result (TakeoverData * Message) :=
  body ← serialize protocolCapabilities d;
  let files := files msg ++ [lockFile d] in
  let files := files ++ [thriftSocket d] in
  let files := foldl (λ files mount, files ++ [fuseFD mount]) files (mountPoints d) in
  Ok (mkTakeoverData None None (map (setFuseFD None) (mountPoints d)),
      mkMessage body files).

(** [msg.files[n]]. *)
Definition fileAt (files : list File) (n : nat) : File :=
  default None (files !! n).

Definition mountPointFilesOffset : nat := 2.

(** [TakeoverData::deserialize(UnixSocket::Message&)]. *)
Definition deserializeMessage (msg : Message) : result TakeoverData :=
  '(protocolVersion, buf) ← getProtocolVersion (data msg);
  capabilities ← versionToCapabilites protocolVersion;
  d ← deserialize capabilities buf;
  if bool_decide (length (mountPoints d) + mountPointFilesOffset
                  ≠ length (files msg))%nat
  then Throw runtime_error
  else
    Ok (mkTakeoverData
          (fileAt (files msg) 0)
          (fileAt (files msg) 1)
          (imap (λ n, setFuseFD (fileAt (files msg) (n + mountPointFilesOffset)))
                (mountPoints d))).

(** *** Facts about the Thrift dialect *)

Lemma toAbsolutePath_stringPiece (p : AbsolutePath) :
  toAbsolutePath (stringPiece p) = Ok p.
Proof.
  destruct p as [s ok]. unfold toAbsolutePath. cbn [stringPiece].
  destruct (decide (Is_true (absolutePathCheck s))) as [ok'|bad]; [|done].
  do 2 f_equal. apply proof_irrel.
Qed.

Lemma mapM_toAbsolutePath (l : list AbsolutePath) :
  mapM toAbsolutePath (map stringPiece l) = Ok l.
Proof.
  induction l as [|p l IH]; [done|].
  cbn [map mapM]. rewrite toAbsolutePath_stringPiece, IH. done.
Qed.

Lemma fuse_init_out_of_string_rawBytes (c : fuse_init_out) :
  fuse_init_out_of_string (rawBytes c) = c.
Proof.
  destruct c as [raw Hlen]. unfold fuse_init_out_of_string. cbn [rawBytes].
  assert (Htake : take sizeof_fuse_init_out (raw ++ zeros sizeof_fuse_init_out) = raw).
  { rewrite <- Hlen. by rewrite take_app_length. }
  generalize (fuse_init_out_of_string_obligation_1 raw).
  rewrite Htake. intros Hlen'. f_equal. apply proof_irrel.
Qed.

Lemma fromSerializedMount_toSerializedMount (mount : MountInfo) :
  fromSerializedMount (toSerializedMount mount) = Ok (setFuseFD None mount).
Proof.
  unfold fromSerializedMount, toSerializedMount.
  cbn [bindMountPaths_ref mountPath_ref stateDirectory_ref connInfo_ref
       inodeMap_ref].
  rewrite mapM_toAbsolutePath, !toAbsolutePath_stringPiece.
  by rewrite fuse_init_out_of_string_rawBytes.
Qed.

Lemma mapM_fromSerializedMount (mounts : list MountInfo) :
  mapM fromSerializedMount (map toSerializedMount mounts)
  = Ok (map (setFuseFD None) mounts).
Proof.
  induction mounts as [|m l IH]; [done|].
  cbn [map mapM]. rewrite fromSerializedMount_toSerializedMount, IH. done.
Qed.

Lemma getProtocolVersion_three (payload : bytes) :
  getProtocolVersion (writeBE32 3 ++ payload)
  = Ok (kTakeoverProtocolVersionThree, payload).
Proof.
  unfold getProtocolVersion, readBE_u32.
  rewrite length_app, length_writeBE32.
  destruct (Nat.ltb_spec (4 + length payload) 4) as [Hlt|_]; [lia|].
  rewrite readBE32_writeBE32 by (unfold UINT32_MAX; lia).
  cbn [mbind result_bind]. rewrite drop_app_length' by done. done.
Qed.

Lemma deserialize_thrift_mounts (mounts : list MountInfo) :
  let serialized := Type_mounts (map toSerializedMount mounts) in
  compactDeserialize (compactSerialize serialized) = Ok serialized →
  deserialize (Z.lor FUSE THRIFT_SERIALIZATION) (compactSerialize serialized)
  = Ok (mkTakeoverData None None (map (setFuseFD None) mounts)).
Proof using Type.
  intros serialized Hcodec. unfold deserialize, deserializeThrift.
  replace (serializationMethod (Z.lor FUSE THRIFT_SERIALIZATION))
    with THRIFT_SERIALIZATION by done.
  destruct (decide (THRIFT_SERIALIZATION = CUSTOM_SERIALIZATION)); [done|].
  destruct (decide (THRIFT_SERIALIZATION = THRIFT_SERIALIZATION)); [|done].
  rewrite Hcodec. subst serialized. cbn [mbind result_bind].
  by rewrite mapM_fromSerializedMount.
Qed.

(** C5. When the capabilities are those of protocol version 4, the Thrift
    serializer starts the body with the big-endian word 3, not 4.  A peer
    that reads that body takes it for version 3, whose capabilities select
    the Thrift deserializer, and that returns the mount list it was given:
    every mount with its [mountPath], [stateDirectory], [bindMounts],
    [connInfo] bytes and [inodeMap], and no descriptor yet.  The compact
    serializer is assumed to give back the structure it wrote. *)
Theorem thrift_version_four_advertises_three
    (protocolCapabilities : Z) (d : TakeoverData) :
  capabilitesToVersion protocolCapabilities = Ok kTakeoverProtocolVersionFour →
  let serialized := Type_mounts (map toSerializedMount (mountPoints d)) in
  compactDeserialize (compactSerialize serialized) = Ok serialized →
  let body := writeBE32 3 ++ compactSerialize serialized in
  serializeThrift protocolCapabilities d = Ok body ∧
  serialize protocolCapabilities d = Ok body ∧
  take 4 body ≠ writeBE32 4 ∧
  ∃ buf capabilities,
    getProtocolVersion body = Ok (kTakeoverProtocolVersionThree, buf) ∧
    versionToCapabilites kTakeoverProtocolVersionThree = Ok capabilities ∧
    deserialize capabilities buf
    = Ok (mkTakeoverData None None (map (setFuseFD None) (mountPoints d))).
Proof using Type.
  intros Hversion serialized Hcodec body.
  assert (Hcaps : protocolCapabilities
                  = Z.lor (Z.lor FUSE THRIFT_SERIALIZATION) PING).
  { unfold capabilitesToVersion in Hversion.
    repeat (destruct (decide _) as [?|?] in Hversion; try done). }
  assert (Hthrift : serializeThrift protocolCapabilities d = Ok body).
  { unfold serializeThrift. rewrite Hversion. done. }
  split; [done|]. split.
  { unfold serialize. rewrite <- Hthrift. clear Hthrift Hversion.
    subst protocolCapabilities.
    replace (serializationMethod (Z.lor (Z.lor FUSE THRIFT_SERIALIZATION) PING))
      with THRIFT_SERIALIZATION by done.
    destruct (decide (THRIFT_SERIALIZATION = CUSTOM_SERIALIZATION)); [done|].
    by destruct (decide (THRIFT_SERIALIZATION = THRIFT_SERIALIZATION)). }
  split; [done|].
  exists (compactSerialize serialized), (Z.lor FUSE THRIFT_SERIALIZATION).
  split; [apply getProtocolVersion_three|]. split; [done|].
  by apply deserialize_thrift_mounts.
Qed.

(** *** Descriptors *)

Lemma foldl_push_back (mounts : list MountInfo) (files : list File) :
  foldl (λ files mount, files ++ [fuseFD mount]) files mounts
  = files ++ map fuseFD mounts.
Proof.
  revert files. induction mounts as [|m l IH]; intros files.
  - by rewrite app_nil_r.
  - cbn [foldl map]. rewrite IH. by rewrite <- app_assoc.
Qed.

Lemma reattach_fuseFD (mounts : list MountInfo) (fds : list File) :
  length mounts = length fds →
  map fuseFD (imap (λ n, setFuseFD (default None (fds !! n))) mounts) = fds.
Proof.
  revert fds. induction mounts as [|m l IH]; intros [|fd fds] Hlen;
    try done.
  rewrite imap_cons. cbn [map fuseFD setFuseFD lookup list_lookup default].
  f_equal. apply IH. by injection Hlen.
Qed.

Lemma reattach_keeps_mounts (mounts : list MountInfo) (g : nat → File) :
  map (setFuseFD None) (imap (λ n, setFuseFD (g n)) mounts)
  = map (setFuseFD None) mounts.
Proof.
  revert g. induction mounts as [|m l IH]; intros g; [done|].
  rewrite imap_cons. cbn [map]. f_equal. apply (IH (g ∘ S)).
Qed.

(** C6. Serialization appends to the message, in this order, the lock file,
    the thrift socket and the kernel-channel descriptor of every mount in
    mount order.  Deserialization, once the body has decoded to some mounts,
    throws when the message does not carry exactly two descriptors more than
    there are mounts, and otherwise hands out the descriptors by position:
    the first is the lock file, the second the thrift socket, and the
    descriptor at position [n + 2] goes to mount [n]; the mounts are
    otherwise as decoded. *)
Theorem takeover_descriptor_order :
  (∀ protocolCapabilities d msg body,
      serialize protocolCapabilities d = Ok body →
      ∃ d', serializeMessage protocolCapabilities d msg
            = Ok (d', mkMessage body
                        (files msg ++ lockFile d :: thriftSocket d
                                   :: map fuseFD (mountPoints d)))) ∧
  (∀ msg protocolVersion buf capabilities d,
      getProtocolVersion (data msg) = Ok (protocolVersion, buf) →
      versionToCapabilites protocolVersion = Ok capabilities →
      deserialize capabilities buf = Ok d →
      (length (files msg) ≠ length (mountPoints d) + 2 →
         deserializeMessage msg = Throw runtime_error)%nat ∧
      (length (files msg) = length (mountPoints d) + 2 →
         ∃ d', deserializeMessage msg = Ok d' ∧
               files msg = lockFile d' :: thriftSocket d'
                                      :: map fuseFD (mountPoints d') ∧
               map (setFuseFD None) (mountPoints d')
               = map (setFuseFD None) (mountPoints d))%nat).
Proof using Type.
  split.
  - intros caps d msg body Hbody. eexists. unfold serializeMessage.
    rewrite Hbody. cbn [mbind result_bind]. rewrite foldl_push_back.
    by rewrite <- !app_assoc.
  - intros msg version buf caps d Hversion Hcaps Hbody.
    unfold deserializeMessage. rewrite Hversion. cbn [mbind result_bind].
    rewrite Hcaps. cbn [mbind result_bind]. rewrite Hbody.
    cbn [mbind result_bind]. unfold mountPointFilesOffset. split.
    + intros Hne. by rewrite bool_decide_eq_true_2 by lia.
    + intros Heq. rewrite bool_decide_eq_false_2 by lia.
      eexists. split; [done|]. cbn [lockFile thriftSocket mountPoints].
      split; [|apply reattach_keeps_mounts].
      destruct (files msg) as [|f0 [|f1 fds]] eqn:Hfiles;
        cbn [length] in Heq; [lia|lia|].
      unfold fileAt. cbn [lookup list_lookup default]. do 2 f_equal.
      rewrite <- (reattach_fuseFD (mountPoints d) fds) at 1 by lia.
      f_equal. apply imap_ext. intros n m _. f_equal.
      by rewrite Nat.add_comm.
Qed.

(** *** The custom dialect, read back *)

Lemma cursor_bind_eq {A B} (c : Cursor A) (k : A → Cursor B) (buf rest : bytes)
    (a : A) :
  c buf = Ok (a, rest) → (c ≫= k) buf = k a rest.
Proof. intros Hc. unfold mbind, cursor_bind. by rewrite Hc. Qed.

Lemma readBE_u32_writeBE_u32 (n : Z) (rest : bytes) :
  0 <= n <= UINT32_MAX → readBE_u32 (writeBE_u32 n ++ rest) = Ok (n, rest).
Proof.
  intros Hn. unfold readBE_u32, writeBE_u32, u32.
  rewrite Z.mod_small by (unfold UINT32_MAX in Hn; lia).
  rewrite length_app, length_writeBE32.
  destruct (Nat.ltb_spec (4 + length rest) 4) as [Hlt|_]; [lia|].
  rewrite readBE32_writeBE32 by done. by rewrite drop_app_length'.
Qed.

Lemma readBE_u32_writeSize (n : nat) (rest : bytes) :
  Z.of_nat n <= UINT32_MAX →
  readBE_u32 (writeSize n ++ rest) = Ok (Z.of_nat n, rest).
Proof. intros Hn. apply readBE_u32_writeBE_u32. lia. Qed.

Lemma pull_app (s rest : bytes) : pull (length s) (s ++ rest) = Ok (s, rest).
Proof.
  unfold pull. rewrite length_app.
  destruct (Nat.ltb_spec (length s + length rest) (length s)) as [Hlt|_]; [lia|].
  by rewrite take_app_length, drop_app_length.
Qed.

Lemma readFixedString_app (s rest : bytes) :
  readFixedString (Z.of_nat (length s)) (s ++ rest) = Ok (s, rest).
Proof. unfold readFixedString. rewrite Nat2Z.id. apply pull_app. Qed.

Definition fits_u32 (s : bytes) : Prop := Z.of_nat (length s) <= UINT32_MAX.

(** A mount the custom dialect can carry: every length and count fits its
    32-bit prefix, and the inode map survives its own serializer. *)
Definition mount_fits (mount : MountInfo) : Prop :=
  fits_u32 (stringPiece (mountPath mount)) ∧
  fits_u32 (stringPiece (stateDirectory mount)) ∧
  Z.of_nat (length (bindMounts mount)) <= UINT32_MAX ∧
  Forall (λ bindMount, fits_u32 (stringPiece bindMount)) (bindMounts mount) ∧
  fits_u32 (serializeInodeMap (inodeMap mount)) ∧
  deserializeInodeMap (serializeInodeMap (inodeMap mount)) = Ok (inodeMap mount).

Lemma lift_Ok {A} (a : A) (rest : bytes) : lift (Ok a) rest = Ok (a, rest).
Proof. done. Qed.

Ltac read_step lem :=
  erewrite cursor_bind_eq; [|apply lem; try done].

Lemma readBindMounts_written (bindMounts : list AbsolutePath) (rest : bytes) :
  Forall (λ bindMount, fits_u32 (stringPiece bindMount)) bindMounts →
  readBindMounts (length bindMounts)
    (concat (map (λ bindMount, writeString (stringPiece bindMount)) bindMounts)
     ++ rest)
  = Ok (bindMounts, rest).
Proof.
  induction 1 as [|b l Hb _ IH]; [done|].
  cbn [length readBindMounts map concat]. unfold writeString at 1.
  rewrite <- !app_assoc.
  read_step readBE_u32_writeSize. read_step readFixedString_app.
  rewrite toAbsolutePath_stringPiece. read_step (@lift_Ok AbsolutePath).
  read_step IH. done.
Qed.

Lemma readMount_written (mount : MountInfo) (rest : bytes) :
  mount_fits mount →
  readMount (serializeCustomMount mount ++ rest)
  = Ok (setFuseFD None mount, rest).
Proof.
  intros (Hpath & Hstate & Hcount & Hbind & Hinode & Hcodec).
  unfold readMount, serializeCustomMount, writeString.
  rewrite <- !app_assoc.
  read_step readBE_u32_writeSize. read_step readFixedString_app.
  read_step readBE_u32_writeSize. read_step readFixedString_app.
  read_step readBE_u32_writeSize. rewrite Nat2Z.id.
  read_step readBindMounts_written.
  rewrite <- (rawBytes_length (connInfo mount)) at 1.
  read_step pull_app.
  read_step readBE_u32_writeBE_u32.
  change (readFixedString 0) with (readFixedString (Z.of_nat (length (@nil byte)))).
  rewrite <- (app_nil_l (writeSize _ ++ _)).
  read_step readFixedString_app.
  read_step readBE_u32_writeSize. read_step readFixedString_app.
  rewrite Hcodec. read_step (@lift_Ok SerializedInodeMap).
  rewrite !toAbsolutePath_stringPiece.
  read_step (@lift_Ok AbsolutePath). read_step (@lift_Ok AbsolutePath).
  by rewrite fuse_init_out_of_string_rawBytes.
Qed.

Lemma readMounts_written (mounts : list MountInfo) (rest : bytes) :
  Forall mount_fits mounts →
  readMounts (length mounts) (concat (map serializeCustomMount mounts) ++ rest)
  = Ok (map (setFuseFD None) mounts, rest).
Proof.
  induction 1 as [|m l Hm _ IH]; [done|].
  cbn [length readMounts map concat]. rewrite <- app_assoc.
  read_step readMount_written. read_step IH. done.
Qed.

Lemma custom_dialect_facts (d : TakeoverData) :
  Z.of_nat (length (mountPoints d)) <= UINT32_MAX →
  Forall mount_fits (mountPoints d) →
  deserializeCustom (serializeCustom d)
  = Ok (mkTakeoverData None None (map (setFuseFD None) (mountPoints d))) ∧
  getProtocolVersion (serializeCustom d)
  = Ok (kTakeoverProtocolVersionOne, serializeCustom d) ∧
  serialize (Z.lor CUSTOM_SERIALIZATION FUSE) d = Ok (serializeCustom d) ∧
  deserialize (Z.lor CUSTOM_SERIALIZATION FUSE) (serializeCustom d)
  = Ok (mkTakeoverData None None (map (setFuseFD None) (mountPoints d))).
Proof using Type.
  intros Hcount Hfits.
  assert (Hde : deserializeCustom (serializeCustom d)
                = Ok (mkTakeoverData None None
                        (map (setFuseFD None) (mountPoints d)))).
  { unfold deserializeCustom, serializeCustom.
    read_step readBE_u32_writeBE_u32.
    cbn [andb bool_decide decide_rel].
    rewrite (bool_decide_eq_false_2 (MessageType_MOUNTS ≠ MessageType_MOUNTS))
      by (intros Hn; by apply Hn).
    rewrite andb_false_r.
    rewrite (bool_decide_eq_false_2 (MessageType_MOUNTS = MessageType_ERROR))
      by done.
    read_step readBE_u32_writeSize. rewrite Nat2Z.id.
    rewrite <- (app_nil_r (concat _)).
    read_step readMounts_written. done. }
  split; [done|]. split.
  { unfold getProtocolVersion, serializeCustom.
    rewrite readBE_u32_writeBE_u32 by (unfold UINT32_MAX; done). done. }
  unfold serialize, deserialize.
  replace (serializationMethod (Z.lor CUSTOM_SERIALIZATION FUSE))
    with CUSTOM_SERIALIZATION by done.
  by destruct (decide (CUSTOM_SERIALIZATION = CUSTOM_SERIALIZATION)).
Qed.

(** The custom dialect is read back as written: when there are at most
    [2^32 - 1] mounts and every mount fits, [deserializeCustom] returns the
    mounts that [serializeCustom] was given, without their descriptors, and
    the body is recognised as protocol version 1. *)
Theorem custom_dialect_roundtrip (d : TakeoverData) :
  Z.of_nat (length (mountPoints d)) <= UINT32_MAX →
  Forall mount_fits (mountPoints d) →
  deserializeCustom (serializeCustom d)
  = Ok (mkTakeoverData None None (map (setFuseFD None) (mountPoints d))) ∧
  getProtocolVersion (serializeCustom d)
  = Ok (kTakeoverProtocolVersionOne, serializeCustom d) ∧
  ∃ capabilities,
    versionToCapabilites kTakeoverProtocolVersionOne = Ok capabilities ∧
    serialize capabilities d = Ok (serializeCustom d) ∧
    deserialize capabilities (serializeCustom d)
    = Ok (mkTakeoverData None None (map (setFuseFD None) (mountPoints d))).
Proof using Type.
  intros Hcount Hfits.
  destruct (custom_dialect_facts d Hcount Hfits) as (Hde & Hversion & Hser & Hde').
  split; [done|]. split; [done|].
  by exists (Z.lor CUSTOM_SERIALIZATION FUSE).
Qed.

(** *** Whole messages *)

Lemma setFuseFD_fuseFD (mount : MountInfo) : setFuseFD (fuseFD mount) mount = mount.
Proof. by destruct mount. Qed.

Lemma reattach_restores (mounts : list MountInfo) :
  imap (λ n, setFuseFD (default None (map fuseFD mounts !! n)))
       (map (setFuseFD None) mounts)
  = mounts.
Proof.
  induction mounts as [|m l IH]; [done|].
  cbn [map]. rewrite imap_cons. cbn [lookup list_lookup default].
  f_equal; [by destruct m|]. rewrite <- IH at 2. by apply imap_ext.
Qed.

(** Whatever the dialect: when the body that [serialize] wrote decodes to
    the mounts without their descriptors, the message that
    [serializeMessage] builds from an empty one is read back by
    [deserializeMessage] as the takeover data it was built from, every
    descriptor in its place; and the sender is left without descriptors. *)
Lemma message_roundtrip (protocolCapabilities capabilities version : Z)
    (d : TakeoverData) (body buf : bytes) :
  serialize protocolCapabilities d = Ok body →
  getProtocolVersion body = Ok (version, buf) →
  versionToCapabilites version = Ok capabilities →
  deserialize capabilities buf
  = Ok (mkTakeoverData None None (map (setFuseFD None) (mountPoints d))) →
  ∃ msg,
    serializeMessage protocolCapabilities d (mkMessage [] [])
    = Ok (mkTakeoverData None None (map (setFuseFD None) (mountPoints d)), msg)
    ∧ deserializeMessage msg = Ok d.
Proof using Type.
  intros Hbody Hversion Hcaps Hde. eexists. unfold serializeMessage.
  rewrite Hbody. cbn [mbind result_bind]. split; [done|].
  rewrite foldl_push_back. cbn [files app].
  unfold deserializeMessage. cbn [data files]. rewrite Hversion.
  cbn [mbind result_bind]. rewrite Hcaps. cbn [mbind result_bind].
  rewrite Hde. cbn [mbind result_bind mountPoints].
  rewrite bool_decide_eq_false_2.
  2:{ intros Hne. apply Hne. cbn [length]. rewrite !length_map.
      unfold mountPointFilesOffset. lia. }
  unfold fileAt, mountPointFilesOffset.
  cbn [lookup list_lookup default].
  destruct d as [lock sock mounts]. cbn [lockFile thriftSocket mountPoints].
  f_equal. f_equal. rewrite <- (reattach_restores mounts) at 2.
  apply imap_ext. intros n m _. f_equal. by rewrite Nat.add_comm.
Qed.

Lemma serialize_thrift_body (protocolCapabilities : Z) (d : TakeoverData) :
  protocolCapabilities = Z.lor FUSE THRIFT_SERIALIZATION ∨
  protocolCapabilities = Z.lor (Z.lor FUSE THRIFT_SERIALIZATION) PING →
  serialize protocolCapabilities d
  = Ok (writeBE32 3 ++ compactSerialize
                         (Type_mounts (map toSerializedMount (mountPoints d)))).
Proof. by intros [-> | ->]. Qed.

(** The Thrift dialect end to end, for the capabilities of version 3 and of
    version 4: a message built by [serializeMessage] is read back by
    [deserializeMessage] as the same takeover data, lock file, thrift socket
    and every mount with its own descriptor.  The compact serializer is
    assumed to give back the mount list it wrote. *)
Theorem thrift_message_roundtrip (protocolCapabilities : Z) (d : TakeoverData) :
  protocolCapabilities = Z.lor FUSE THRIFT_SERIALIZATION ∨
  protocolCapabilities = Z.lor (Z.lor FUSE THRIFT_SERIALIZATION) PING →
  compactDeserialize
    (compactSerialize (Type_mounts (map toSerializedMount (mountPoints d))))
  = Ok (Type_mounts (map toSerializedMount (mountPoints d))) →
  ∃ msg,
    serializeMessage protocolCapabilities d (mkMessage [] [])
    = Ok (mkTakeoverData None None (map (setFuseFD None) (mountPoints d)), msg)
    ∧ deserializeMessage msg = Ok d.
Proof using Type.
  intros Hcaps Hcodec.
  eapply message_roundtrip.
  - by apply serialize_thrift_body.
  - apply getProtocolVersion_three.
  - done.
  - by apply deserialize_thrift_mounts.
Qed.

(** The custom dialect end to end, for the capabilities of version 1. *)
Theorem custom_message_roundtrip (d : TakeoverData) :
  Z.of_nat (length (mountPoints d)) <= UINT32_MAX →
  Forall mount_fits (mountPoints d) →
  ∃ msg,
    serializeMessage (Z.lor CUSTOM_SERIALIZATION FUSE) d (mkMessage [] [])
    = Ok (mkTakeoverData None None (map (setFuseFD None) (mountPoints d)), msg)
    ∧ deserializeMessage msg = Ok d.
Proof using Type.
  intros Hcount Hfits.
  destruct (custom_dialect_facts d Hcount Hfits) as (Hde & Hversion & Hser & Hde').
  by eapply message_roundtrip.
Qed.

(** *** Error replies

    A [folly::exception_wrapper] is read through [class_name()] and, when it
    holds an exception, through [what()]; an empty wrapper has an empty class
    name and an empty message. *)

Definition exception_wrapper : Type := option (bytes * bytes).

Definition class_name (ew : exception_wrapper) : bytes :=
  match ew with Some (name, _) => name | None => [] end.

Definition what (ew : exception_wrapper) : bytes :=
  match ew with Some (_, message) => message | None => [] end.

Definition serializeErrorCustom (ew : exception_wrapper) : bytes :=
  let exceptionClassName := class_name ew in
  let what := what ew in
  writeBE_u32 MessageType_ERROR
  ++ writeSize (length exceptionClassName) ++ exceptionClassName
  ++ writeSize (length what) ++ what.

Definition serializeErrorThrift (ew : exception_wrapper) : bytes :=
  let exceptionClassName := class_name ew in
  let what := what ew in
  let serialized :=
    Type_errorReason (exceptionClassName ++ [":"%byte; " "%byte] ++ what) in
  writeBE_u32 kTakeoverProtocolVersionThree ++ compactSerialize serialized.

Definition serializeError (protocolCapabilities : Z) (ew : exception_wrapper)
  : result bytes :=
  if bool_decide (serializationMethod protocolCapabilities = CUSTOM_SERIALIZATION)
     || bool_decide (protocolCapabilities = 0)
  then Ok (serializeErrorCustom ew)
  else if bool_decide (serializationMethod protocolCapabilities = THRIFT_SERIALIZATION)
  then Ok (serializeErrorThrift ew)
  else Throw runtime_error.

Lemma cursor_bind_never_ok {A B} (c : Cursor A) (k : A → Cursor B) (buf : bytes) :
  (∀ a rest, is_ok (k a rest) = false) →
  is_ok ((c ≫= k) buf) = false.
Proof.
  intros Hk. unfold mbind, cursor_bind. destruct (c buf) as [[a rest]|e]; [|done].
  apply Hk.
Qed.

Lemma fmap_never_ok {A B} (f : A → B) (r : result A) :
  is_ok r = false → is_ok (f <$> r) = false.
Proof. by destruct r. Qed.

Lemma deserializeMessage_body_throws (body : bytes) (files : list File)
    (version capabilities : Z) (buf : bytes) :
  getProtocolVersion body = Ok (version, buf) →
  versionToCapabilites version = Ok capabilities →
  (is_ok (deserialize capabilities buf) = false →
   is_ok (deserializeMessage (mkMessage body files)) = false) ∧
  ∀ e, deserialize capabilities buf = Throw e →
       deserializeMessage (mkMessage body files) = Throw e.
Proof using Type.
  intros Hversion Hcaps. unfold deserializeMessage. cbn [data].
  rewrite Hversion. cbn [mbind result_bind]. rewrite Hcaps.
  cbn [mbind result_bind]. split.
  - by destruct (deserialize capabilities buf).
  - by intros e ->.
Qed.

Lemma deserializeCustom_error (ew : exception_wrapper) :
  is_ok (deserializeCustom (serializeErrorCustom ew)) = false ∧
  (fits_u32 (class_name ew) → fits_u32 (what ew) →
   deserializeCustom (serializeErrorCustom ew) = Throw runtime_error).
Proof using Type.
  unfold deserializeCustom, serializeErrorCustom.
  read_step readBE_u32_writeBE_u32.
  rewrite (bool_decide_eq_false_2 (MessageType_ERROR ≠ MessageType_ERROR))
    by (intros Hn; by apply Hn).
  cbn [andb]. rewrite (bool_decide_eq_true_2 (MessageType_ERROR = MessageType_ERROR))
    by done.
  split.
  - apply fmap_never_ok.
    repeat (apply cursor_bind_never_ok; intros ? ?). done.
  - intros Hname Hwhat.
    read_step readBE_u32_writeSize.
    read_step readFixedString_app.
    rewrite <- (app_nil_r (what ew)) at 2.
    rewrite (app_assoc _ (what ew) []).
    rewrite <- (app_assoc (writeSize _) (what ew) []).
    read_step readBE_u32_writeSize.
    read_step readFixedString_app.
    done.
Qed.

(** An error reply in the custom dialect, which is also the one chosen when
    no version could be agreed on (capabilities 0): [serializeError] always
    produces it, the receiver takes it for a version 1 body, and
    [deserialize] never returns takeover data for it, whatever descriptors
    came along.  When the class name and the message fit their 32-bit length
    prefixes, the receiver throws [std::runtime_error]. *)
Theorem custom_error_reply_is_rejected (protocolCapabilities : Z)
    (ew : exception_wrapper) (files : list File) :
  serializationMethod protocolCapabilities = CUSTOM_SERIALIZATION ∨
  protocolCapabilities = 0 →
  serializeError protocolCapabilities ew = Ok (serializeErrorCustom ew) ∧
  is_ok (deserializeMessage (mkMessage (serializeErrorCustom ew) files)) = false ∧
  (fits_u32 (class_name ew) → fits_u32 (what ew) →
   deserializeMessage (mkMessage (serializeErrorCustom ew) files)
   = Throw runtime_error).
Proof using Type.
  intros Hcaps. split.
  { unfold serializeError. destruct Hcaps as [Hm | ->].
    - by rewrite bool_decide_eq_true_2.
    - by rewrite orb_true_r. }
  assert (Hversion : getProtocolVersion (serializeErrorCustom ew)
                     = Ok (kTakeoverProtocolVersionOne, serializeErrorCustom ew)).
  { unfold getProtocolVersion, serializeErrorCustom.
    rewrite readBE_u32_writeBE_u32 by (unfold UINT32_MAX; done). done. }
  destruct (deserializeMessage_body_throws _ files _ _ _ Hversion eq_refl)
    as [Hnever Hthrows].
  destruct (deserializeCustom_error ew) as [Hnot Hruntime].
  split.
  - apply Hnever. unfold deserialize.
    replace (serializationMethod (Z.lor CUSTOM_SERIALIZATION FUSE))
      with CUSTOM_SERIALIZATION by done.
    by destruct (decide (CUSTOM_SERIALIZATION = CUSTOM_SERIALIZATION)).
  - intros Hname Hwhat. apply Hthrows. unfold deserialize.
    replace (serializationMethod (Z.lor CUSTOM_SERIALIZATION FUSE))
      with CUSTOM_SERIALIZATION by done.
    destruct (decide (CUSTOM_SERIALIZATION = CUSTOM_SERIALIZATION)); [|done].
    by apply Hruntime.
Qed.

(** An error reply in the Thrift dialect: for any capabilities that select
    Thrift serialization [serializeError] produces it, with version 3 as its
    first word, and the receiver throws [std::runtime_error] instead of
    returning takeover data.  The compact serializer is assumed to give back
    the error reason it wrote. *)
Theorem thrift_error_reply_is_rejected (protocolCapabilities : Z)
    (ew : exception_wrapper) (files : list File) :
  serializationMethod protocolCapabilities = THRIFT_SERIALIZATION →
  compactDeserialize
    (compactSerialize
       (Type_errorReason (class_name ew ++ [":"%byte; " "%byte] ++ what ew)))
  = Ok (Type_errorReason (class_name ew ++ [":"%byte; " "%byte] ++ what ew)) →
  serializeError protocolCapabilities ew = Ok (serializeErrorThrift ew) ∧
  deserializeMessage (mkMessage (serializeErrorThrift ew) files)
  = Throw runtime_error.
Proof using Type.
  intros Hmethod Hcodec. split.
  { unfold serializeError. rewrite Hmethod.
    rewrite bool_decide_eq_false_2 by done.
    rewrite bool_decide_eq_false_2 by (by intros ->).
    by rewrite bool_decide_eq_true_2. }
  assert (Hversion : getProtocolVersion (serializeErrorThrift ew)
                     = Ok (kTakeoverProtocolVersionThree,
                           compactSerialize
                             (Type_errorReason
                                (class_name ew ++ [":"%byte; " "%byte] ++ what ew)))).
  { apply getProtocolVersion_three. }
  destruct (deserializeMessage_body_throws _ files _ _ _ Hversion eq_refl)
    as [_ Hthrows].
  apply Hthrows. unfold deserialize.
  replace (serializationMethod (Z.lor FUSE THRIFT_SERIALIZATION))
    with THRIFT_SERIALIZATION by done.
  destruct (decide (THRIFT_SERIALIZATION = CUSTOM_SERIALIZATION)); [done|].
  destruct (decide (THRIFT_SERIALIZATION = THRIFT_SERIALIZATION)); [|done].
  unfold deserializeThrift. by rewrite Hcodec.
Qed.

(** *** Pings *)

(** [isPing] recognises what [serializePing] writes, and nothing that the
    custom dialect writes, data or error.  A Thrift data body starts with
    the word 3, which is also the ping message type: it is taken for a ping
    exactly when the compact serializer wrote no byte at all. *)
Theorem ping_recognition (d : TakeoverData) (ew : exception_wrapper) :
  isPing serializePing = true ∧
  isPing (serializeCustom d) = false ∧
  isPing (serializeErrorCustom ew) = false ∧
  ∀ protocolCapabilities body,
    serializationMethod protocolCapabilities = THRIFT_SERIALIZATION →
    serialize protocolCapabilities d = Ok body →
    (isPing body = true ↔
     compactSerialize (Type_mounts (map toSerializedMount (mountPoints d))) = []).
Proof using Type.
  assert (Hfirst : ∀ (w : Z) (rest : bytes),
            0 <= w <= UINT32_MAX → w ≠ MessageType_PING →
            isPing (writeBE_u32 w ++ rest) = false).
  { intros w rest Hw Hne. unfold isPing.
    pose proof (readBE_u32_writeBE_u32 w rest Hw) as Hread.
    unfold readBE_u32 in Hread.
    destruct (length (writeBE_u32 w ++ rest) <? 4)%nat; [done|].
    assert (Hword : readBE32 (writeBE_u32 w ++ rest) = w) by congruence.
    rewrite Hword.
    rewrite (bool_decide_eq_false_2 (w = MessageType_PING)) by done.
    apply andb_false_r. }
  split; [done|].
  split; [by apply Hfirst|].
  split; [by apply Hfirst|].
  intros caps body Hmethod Hbody.
  unfold serialize in Hbody. rewrite Hmethod in Hbody.
  destruct (decide (THRIFT_SERIALIZATION = CUSTOM_SERIALIZATION)); [done|].
  destruct (decide (THRIFT_SERIALIZATION = THRIFT_SERIALIZATION)); [|done].
  unfold serializeThrift in Hbody.
  unfold capabilitesToVersion in Hbody.
  set (payload := compactSerialize _) in *.
  assert (Hthree : body = writeBE_u32 3 ++ payload).
  { repeat (destruct (decide _) in Hbody; simplify_eq/=; try done). }
  subst body. unfold isPing.
  pose proof (readBE_u32_writeBE_u32 3 payload) as Hread.
  unfold readBE_u32 in Hread.
  destruct (length (writeBE_u32 3 ++ payload) <? 4)%nat eqn:Hlen.
  { clear Hread. apply Nat.ltb_lt in Hlen. rewrite length_app in Hlen.
    unfold writeBE_u32 in Hlen. rewrite length_writeBE32 in Hlen. lia. }
  specialize (Hread ltac:(unfold UINT32_MAX; lia)).
  assert (Hword : readBE32 (writeBE_u32 3 ++ payload) = 3) by congruence.
  rewrite Hword.
  rewrite (bool_decide_eq_true_2 (3 = MessageType_PING)) by done.
  rewrite andb_true_r, bool_decide_eq_true, length_app.
  unfold writeBE_u32. rewrite length_writeBE32.
  destruct payload; cbn [length]; split; intros; (done || lia).
Qed.

End Codec.

(** *** Version negotiation *)

Lemma foldl_considerVersion (supported : gset Z) (l : list Z) (best : option Z) :
  match foldl (considerVersion supported) best l with
  | Some v =>
      (best = Some v ∨ (v ∈ l ∧ v ∈ supported)) ∧
      (∀ b, best = Some b → b <= v) ∧
      (∀ w, w ∈ l → w ∈ supported → w <= v)
  | None => best = None ∧ ∀ w, w ∈ l → w ∉ supported
  end.
Proof.
  revert best. induction l as [|x l IH]; intros best.
  - cbn [foldl]. destruct best as [b|].
    + split; [by left|]. split; [by intros ? [= ->]|]. by intros w ?%elem_of_nil.
    + split; [done|]. by intros w ?%elem_of_nil.
  - cbn [foldl]. specialize (IH (considerVersion supported best x)).
    destruct (foldl _ _ l) as [v|].
    + destruct IH as (Hfrom & Hbest & Hmax).
      assert (Hkeep : ∀ P : Prop, (P ∨ v ∈ l ∧ v ∈ supported) →
                        (P → best = Some v ∨ v = x ∧ x ∈ supported) →
                        best = Some v ∨ v ∈ x :: l ∧ v ∈ supported).
      { intros P [HP|[Hl Hs]] Himp.
        - destruct (Himp HP) as [?|[-> ?]]; [by left|].
          right. split; [apply elem_of_cons; by left | done].
        - right. split; [apply elem_of_cons; by right | done]. }
      unfold considerVersion in Hfrom, Hbest.
      destruct best as [b|].
      * destruct (decide (b > x)) as [Hgt|Hle].
        -- rewrite bool_decide_eq_true_2 in Hfrom, Hbest by done.
           specialize (Hbest b eq_refl).
           split; [apply (Hkeep _ Hfrom); by left|].
           split; [by intros ? [= <-]|].
           intros w [->|Hw]%elem_of_cons Hs; [lia|by apply Hmax].
        -- rewrite bool_decide_eq_false_2 in Hfrom, Hbest by done.
           destruct (decide (x ∈ supported)) as [Hin|Hout].
           ++ rewrite bool_decide_eq_false_2 in Hfrom, Hbest
                by (intros Hn; by apply Hn).
              specialize (Hbest x eq_refl).
              split; [apply (Hkeep _ Hfrom); intros [= <-]; by right|].
              split; [intros ? [= <-]; lia|].
              intros w [->|Hw]%elem_of_cons Hs; [lia|by apply Hmax].
           ++ rewrite bool_decide_eq_true_2 in Hfrom, Hbest by done.
              specialize (Hbest b eq_refl).
              split; [apply (Hkeep _ Hfrom); by left|].
              split; [by intros ? [= <-]|].
              intros w [->|Hw]%elem_of_cons Hs; [done|by apply Hmax].
      * destruct (decide (x ∈ supported)) as [Hin|Hout].
        -- rewrite bool_decide_eq_false_2 in Hfrom, Hbest
             by (intros Hn; by apply Hn).
           specialize (Hbest x eq_refl).
           split; [apply (Hkeep _ Hfrom); intros [= <-]; by right|].
           split; [done|].
           intros w [->|Hw]%elem_of_cons Hs; [lia|by apply Hmax].
        -- rewrite bool_decide_eq_true_2 in Hfrom, Hbest by done.
           split; [by apply (Hkeep _ Hfrom)|]. split; [done|].
           intros w [->|Hw]%elem_of_cons Hs; [done|by apply Hmax].
    + destruct IH as (Hnone & Hout). unfold considerVersion in Hnone.
      destruct best as [b|].
      * destruct (bool_decide (b > x)); [done|].
        by destruct (bool_decide (x ∉ supported)).
      * split; [done|]. destruct (decide (x ∈ supported)) as [Hin|Hx].
        -- by rewrite bool_decide_eq_false_2 in Hnone
             by (intros Hn; by apply Hn).
        -- intros w [->|Hw]%elem_of_cons; [done|by apply Hout].
Qed.

Lemma elem_of_iteration_order (s : gset Z) (v : Z) :
  v ∈ iteration_order s ↔ v ∈ s.
Proof.
  unfold iteration_order. rewrite merge_sort_Permutation.
  apply elem_of_elements.
Qed.

(** C7. [computeCompatibleVersion] returns the greatest version that is in
    both sets, and nothing exactly when the two sets have no version in
    common; the supported versions are 1, 3 and 4. *)
Theorem computeCompatibleVersion_is_max (versions supported : gset Z) :
  (∀ v, computeCompatibleVersion versions supported = Some v ↔
        v ∈ versions ∩ supported ∧
        ∀ w, w ∈ versions ∩ supported → w <= v) ∧
  (computeCompatibleVersion versions supported = None ↔
   versions ∩ supported = ∅) ∧
  kSupportedTakeoverVersions = {[ 1; 3; 4 ]}.
Proof.
  pose proof (foldl_considerVersion supported (iteration_order versions) None)
    as Hfold.
  fold (computeCompatibleVersion versions supported) in Hfold.
  split; [|split; [|done]].
  - intros v. split.
    + intros Hv. rewrite Hv in Hfold. destruct Hfold as ([?|[Hin Hs]] & _ & Hmax);
        [done|].
      apply elem_of_iteration_order in Hin. split; [set_solver|].
      intros w [Hw1 Hw2]%elem_of_intersection.
      apply Hmax; [by apply elem_of_iteration_order | done].
    + intros [[Hv1 Hv2]%elem_of_intersection Hmax].
      destruct (computeCompatibleVersion versions supported) as [v'|].
      * destruct Hfold as ([?|[Hin Hs]] & _ & Hmax'); [done|].
        apply elem_of_iteration_order in Hin.
        assert (v' <= v) by (apply Hmax; set_solver).
        assert (v <= v')
          by (apply Hmax'; [by apply elem_of_iteration_order | done]).
        f_equal. lia.
      * destruct Hfold as [_ Hout]. exfalso.
        by apply (Hout v); [apply elem_of_iteration_order|].
  - split.
    + intros Hnone. rewrite Hnone in Hfold. destruct Hfold as [_ Hout].
      apply elem_of_equiv_empty_L. intros w [Hw1 Hw2]%elem_of_intersection.
      by apply (Hout w); [apply elem_of_iteration_order|].
    + intros Hempty.
      destruct (computeCompatibleVersion versions supported) as [v'|]; [|done].
      destruct Hfold as ([?|[Hin Hs]] & _); [done|].
      apply elem_of_iteration_order in Hin. set_solver.
Qed.

Example computeCompatibleVersion_offered_3_4_5 :
  computeCompatibleVersion {[ 3; 4; 5 ]} kSupportedTakeoverVersions = Some 4.
Proof. vm_compute. reflexivity. Qed.

Example computeCompatibleVersion_offered_2 :
  computeCompatibleVersion {[ 2 ]} kSupportedTakeoverVersions = None.
Proof. vm_compute. reflexivity. Qed.

(** [versionToCapabilites] and [capabilitesToVersion] are inverse to each
    other: a version has a capability set exactly when that set is given
    that version back.  This covers version 0 with no capability at all. *)
Theorem version_capabilities_inverse (version capabilities : Z) :
  versionToCapabilites version = Ok capabilities ↔
  capabilitesToVersion capabilities = Ok version.
Proof.
  unfold versionToCapabilites, capabilitesToVersion.
  split; intros H;
    repeat (destruct (decide _) as [?|?] in H; simplify_eq; try done);
    repeat (destruct (decide _) as [?|?]; simplify_eq; try done).
Qed.

(** Whatever the client offers, a version that negotiation against
    [kSupportedTakeoverVersions] settles on can be served: it has a
    capability set, the set maps back to the version, and [serialize]
    accepts the set. *)
Theorem negotiated_version_can_be_served
    (absolutePathCheck : bytes → bool) (sizeof_fuse_init_out : nat)
    {SerializedInodeMap : Type}
    (serializeInodeMap : SerializedInodeMap → bytes)
    (compactSerialize : SerializedTakeoverData → bytes)
    (versions : gset Z) (version : Z)
    (d : TakeoverData absolutePathCheck sizeof_fuse_init_out) :
  computeCompatibleVersion versions kSupportedTakeoverVersions = Some version →
  ∃ capabilities,
    versionToCapabilites version = Ok capabilities ∧
    capabilitesToVersion capabilities = Ok version ∧
    is_ok (serialize absolutePathCheck sizeof_fuse_init_out
             serializeInodeMap compactSerialize capabilities d) = true.
Proof.
  intros Hbest. unfold computeCompatibleVersion in Hbest.
  pose proof (foldl_considerVersion kSupportedTakeoverVersions
                (iteration_order versions) None) as Hfold.
  rewrite Hbest in Hfold. destruct Hfold as ([?|[_ Hin]] & _); [done|].
  unfold kSupportedTakeoverVersions in Hin.
  apply elem_of_union in Hin as [Hin| ->%elem_of_singleton].
  - apply elem_of_union in Hin as [->%elem_of_singleton | ->%elem_of_singleton].
    + by exists (Z.lor CUSTOM_SERIALIZATION FUSE).
    + by exists (Z.lor FUSE THRIFT_SERIALIZATION).
  - by exists (Z.lor (Z.lor FUSE THRIFT_SERIALIZATION) PING).
Qed.

(** *** A concrete instance of the codec

    Paths are accepted when they start with a slash, [fuse_init_out] has
    eight bytes, an inode map is a byte string that serializes to itself, and
    the union is written as a tag byte followed by length-prefixed fields. *)

Definition exampleCheck (s : bytes) : bool :=
  bool_decide (head s = Some "/"%byte).

Definition exampleSizeof : nat := 8.

Definition exampleSerializeMount (m : SerializedMountInfo (SerializedInodeMap := bytes))
  : bytes :=
  writeString (mountPath_ref m)
  ++ writeString (stateDirectory_ref m)
  ++ writeSize (length (bindMountPaths_ref m))
  ++ concat (map writeString (bindMountPaths_ref m))
  ++ writeString (connInfo_ref m)
  ++ writeString (inodeMap_ref m).

Definition exampleSerialize (x : SerializedTakeoverData (SerializedInodeMap := bytes))
  : bytes :=
  match x with
  | Type_EMPTY => [byte_of_Z 0]
  | Type_mounts mounts =>
      [byte_of_Z 1] ++ writeSize (length mounts)
                    ++ concat (map exampleSerializeMount mounts)
  | Type_errorReason reason => [byte_of_Z 2] ++ writeString reason
  end.

Definition readString : Cursor bytes :=
  len ← readBE_u32; readFixedString len.

Fixpoint readStrings (n : nat) : Cursor (list bytes) :=
  match n with
  | O => mret []
  | S n' => s ← readString; rest ← readStrings n'; mret (s :: rest)
  end.

Definition exampleReadMount
  : Cursor (SerializedMountInfo (SerializedInodeMap := bytes)) :=
  mountPath ← readString;
  stateDirectory ← readString;
  numBindMounts ← readBE_u32;
  bindMounts ← readStrings (Z.to_nat numBindMounts);
  connInfo ← readString;
  inodeMap ← readString;
  mret (mkSerializedMountInfo mountPath stateDirectory bindMounts connInfo inodeMap).

Fixpoint exampleReadMounts (n : nat)
  : Cursor (list (SerializedMountInfo (SerializedInodeMap := bytes))) :=
  match n with
  | O => mret []
  | S n' => m ← exampleReadMount; rest ← exampleReadMounts n'; mret (m :: rest)
  end.

Definition exampleDeserialize (buf : bytes)
  : result (SerializedTakeoverData (SerializedInodeMap := bytes)) :=
  fst <$> (
    tag ← pull 1;
    if bool_decide (tag = [byte_of_Z 0]) then mret Type_EMPTY
    else if bool_decide (tag = [byte_of_Z 1]) then
      numMounts ← readBE_u32;
      mounts ← exampleReadMounts (Z.to_nat numMounts);
      mret (Type_mounts mounts)
    else
      reason ← readString;
      mret (Type_errorReason reason)) buf.

Definition ascii_bytes (codes : list Z) : bytes := map byte_of_Z codes.

(** The paths [/mnt/a], [/mnt/b], [/state/a], [/state/b] and [/bind]. *)
Definition path_mnt_a : AbsolutePath exampleCheck :=
  mkAbsolutePath exampleCheck (ascii_bytes [47; 109; 110; 116; 47; 97]) I.
Definition path_mnt_b : AbsolutePath exampleCheck :=
  mkAbsolutePath exampleCheck (ascii_bytes [47; 109; 110; 116; 47; 98]) I.
Definition path_state_a : AbsolutePath exampleCheck :=
  mkAbsolutePath exampleCheck (ascii_bytes [47; 115; 116; 97; 116; 101; 47; 97]) I.
Definition path_state_b : AbsolutePath exampleCheck :=
  mkAbsolutePath exampleCheck (ascii_bytes [47; 115; 116; 97; 116; 101; 47; 98]) I.
Definition path_bind : AbsolutePath exampleCheck :=
  mkAbsolutePath exampleCheck (ascii_bytes [47; 98; 105; 110; 100]) I.

Definition exampleConnInfo (b : Z) : fuse_init_out exampleSizeof :=
  mk_fuse_init_out exampleSizeof (replicate 8 (byte_of_Z b)) eq_refl.

(** Two mounts with kernel channels 7 and 9, lock file 3, thrift socket 4. *)
Definition exampleData : TakeoverData exampleCheck exampleSizeof :=
  mkTakeoverData exampleCheck exampleSizeof (Some 3) (Some 4)
    [ mkMountInfo exampleCheck exampleSizeof path_mnt_a path_state_a [path_bind]
                  (Some 7) (exampleConnInfo 17) (ascii_bytes [1; 2; 3]);
      mkMountInfo exampleCheck exampleSizeof path_mnt_b path_state_b []
                  (Some 9) (exampleConnInfo 34) (ascii_bytes []) ].

Definition versionFourCapabilities : Z :=
  Z.lor (Z.lor FUSE THRIFT_SERIALIZATION) PING.

Definition exampleBody : bytes :=
  writeBE32 3 ++ exampleSerialize
                   (Type_mounts (map (toSerializedMount exampleCheck exampleSizeof)
                                     (mountPoints _ _ exampleData))).

Lemma thrift_version_four_advertises_three_witness :
  serialize exampleCheck exampleSizeof (λ m, m) exampleSerialize
            versionFourCapabilities exampleData = Ok exampleBody ∧
  ∃ buf capabilities,
    getProtocolVersion exampleBody = Ok (kTakeoverProtocolVersionThree, buf) ∧
    versionToCapabilites kTakeoverProtocolVersionThree = Ok capabilities ∧
    deserialize exampleCheck exampleSizeof Ok exampleDeserialize capabilities buf
    = Ok (mkTakeoverData exampleCheck exampleSizeof None None
            (map (setFuseFD exampleCheck exampleSizeof None)
                 (mountPoints _ _ exampleData))).
Proof.
  destruct (thrift_version_four_advertises_three
              exampleCheck exampleSizeof (λ m, m) Ok
              exampleSerialize exampleDeserialize
              versionFourCapabilities exampleData)
    as (_ & Hser & _ & Hde).
  - reflexivity.
  - vm_compute. reflexivity.
  - split; [exact Hser | exact Hde].
Defined.

Definition exampleDeserializeMessage
  : Message → result (TakeoverData exampleCheck exampleSizeof) :=
  deserializeMessage exampleCheck exampleSizeof Ok exampleDeserialize.

Lemma exampleBody_deserialize :
  deserialize exampleCheck exampleSizeof Ok exampleDeserialize
    (Z.lor FUSE THRIFT_SERIALIZATION) (drop 4 exampleBody)
  = Ok (mkTakeoverData exampleCheck exampleSizeof None None
          (map (setFuseFD exampleCheck exampleSizeof None)
               (mountPoints _ _ exampleData))).
Proof.
  apply (deserialize_thrift_mounts exampleCheck exampleSizeof Ok
           exampleSerialize exampleDeserialize (mountPoints _ _ exampleData)).
  vm_compute. reflexivity.
Qed.

Lemma takeover_descriptor_order_witness :
  (∃ d', serializeMessage exampleCheck exampleSizeof (λ m, m) exampleSerialize
           versionFourCapabilities exampleData (mkMessage [] [])
         = Ok (d', mkMessage exampleBody [Some 3; Some 4; Some 7; Some 9])) ∧
  exampleDeserializeMessage (mkMessage exampleBody [Some 3; Some 4; Some 7])
  = Throw runtime_error ∧
  ∃ d', exampleDeserializeMessage
          (mkMessage exampleBody [Some 3; Some 4; Some 7; Some 9]) = Ok d' ∧
        [Some 3; Some 4; Some 7; Some 9]
        = lockFile _ _ d' :: thriftSocket _ _ d'
                          :: map (fuseFD _ _) (mountPoints _ _ d').
Proof.
  destruct (takeover_descriptor_order exampleCheck exampleSizeof
              (λ m, m) Ok exampleSerialize exampleDeserialize)
    as [Hser Hde].
  split; [|split].
  - apply (Hser versionFourCapabilities exampleData (mkMessage [] []) exampleBody).
    vm_compute. reflexivity.
  - apply (Hde (mkMessage exampleBody [Some 3; Some 4; Some 7])
               kTakeoverProtocolVersionThree (drop 4 exampleBody)
               (Z.lor FUSE THRIFT_SERIALIZATION) _
               (getProtocolVersion_three _) eq_refl exampleBody_deserialize).
    cbn. lia.
  - destruct (Hde (mkMessage exampleBody [Some 3; Some 4; Some 7; Some 9])
               kTakeoverProtocolVersionThree (drop 4 exampleBody)
               (Z.lor FUSE THRIFT_SERIALIZATION) _
               (getProtocolVersion_three _) eq_refl exampleBody_deserialize)
      as [_ Hok].
    destruct Hok as (d' & Hd' & Hfiles & _); [reflexivity|].
    exists d'. split; [exact Hd' | exact Hfiles].
Defined.

Lemma exampleData_fits :
  Forall (mount_fits exampleCheck exampleSizeof (λ m, m) Ok)
         (mountPoints _ _ exampleData).
Proof.
  unfold exampleData. cbn [mountPoints].
  apply Forall_cons_2; [|apply Forall_cons_2; [|apply Forall_nil_2]].
  - unfold mount_fits, fits_u32. cbn [mountPath stateDirectory bindMounts inodeMap].
    split; [vm_compute; discriminate|].
    split; [vm_compute; discriminate|].
    split; [vm_compute; discriminate|].
    split; [|split; [vm_compute; discriminate|reflexivity]].
    apply Forall_cons_2; [vm_compute; discriminate|apply Forall_nil_2].
  - unfold mount_fits, fits_u32. cbn [mountPath stateDirectory bindMounts inodeMap].
    split; [vm_compute; discriminate|].
    split; [vm_compute; discriminate|].
    split; [vm_compute; discriminate|].
    split; [apply Forall_nil_2|].
    split; [vm_compute; discriminate|reflexivity].
Qed.

Lemma custom_dialect_roundtrip_witness :
  deserializeCustom exampleCheck exampleSizeof Ok
    (serializeCustom exampleCheck exampleSizeof (λ m, m) exampleData)
  = Ok (mkTakeoverData exampleCheck exampleSizeof None None
          (map (setFuseFD exampleCheck exampleSizeof None)
               (mountPoints _ _ exampleData))).
Proof.
  apply (custom_dialect_roundtrip exampleCheck exampleSizeof (λ m, m) Ok
           exampleSerialize exampleDeserialize exampleData).
  - vm_compute. discriminate.
  - exact exampleData_fits.
Defined.

Lemma thrift_message_roundtrip_witness :
  ∃ msg,
    serializeMessage exampleCheck exampleSizeof (λ m, m) exampleSerialize
      versionFourCapabilities exampleData (mkMessage [] [])
    = Ok (mkTakeoverData exampleCheck exampleSizeof None None
            (map (setFuseFD exampleCheck exampleSizeof None)
                 (mountPoints _ _ exampleData)), msg)
    ∧ exampleDeserializeMessage msg = Ok exampleData.
Proof.
  apply (thrift_message_roundtrip exampleCheck exampleSizeof (λ m, m) Ok
           exampleSerialize exampleDeserialize
           versionFourCapabilities exampleData).
  - right. reflexivity.
  - vm_compute. reflexivity.
Defined.

Lemma custom_message_roundtrip_witness :
  ∃ msg,
    serializeMessage exampleCheck exampleSizeof (λ m, m) exampleSerialize
      (Z.lor CUSTOM_SERIALIZATION FUSE) exampleData (mkMessage [] [])
    = Ok (mkTakeoverData exampleCheck exampleSizeof None None
            (map (setFuseFD exampleCheck exampleSizeof None)
                 (mountPoints _ _ exampleData)), msg)
    ∧ exampleDeserializeMessage msg = Ok exampleData.
Proof.
  apply (custom_message_roundtrip exampleCheck exampleSizeof (λ m, m) Ok
           exampleSerialize exampleDeserialize exampleData).
  - vm_compute. discriminate.
  - exact exampleData_fits.
Defined.

Lemma negotiated_version_can_be_served_witness :
  ∃ capabilities,
    versionToCapabilites 4 = Ok capabilities ∧
    capabilitesToVersion capabilities = Ok 4 ∧
    is_ok (serialize exampleCheck exampleSizeof (λ m, m) exampleSerialize
             capabilities exampleData) = true.
Proof.
  apply (negotiated_version_can_be_served exampleCheck exampleSizeof
           (λ m, m) exampleSerialize {[3; 4; 5]} 4 exampleData).
  vm_compute. reflexivity.
Defined.

(** A [std::runtime_error] with the message [boom]. *)
Definition exampleError : exception_wrapper :=
  Some (ascii_bytes [115; 116; 100; 58; 58; 114; 117; 110; 116; 105; 109; 101;
                     95; 101; 114; 114; 111; 114],
        ascii_bytes [98; 111; 111; 109]).

Lemma custom_error_reply_is_rejected_witness :
  serializeError exampleSerialize 0 exampleError
  = Ok (serializeErrorCustom exampleError) ∧
  exampleDeserializeMessage (mkMessage (serializeErrorCustom exampleError) [])
  = Throw runtime_error.
Proof.
  destruct (custom_error_reply_is_rejected exampleCheck exampleSizeof Ok
              exampleSerialize exampleDeserialize 0 exampleError [])
    as (Hser & _ & Hde).
  - right. reflexivity.
  - split; [exact Hser|]. apply Hde; vm_compute; discriminate.
Defined.

Lemma thrift_error_reply_is_rejected_witness :
  serializeError exampleSerialize versionFourCapabilities exampleError
  = Ok (serializeErrorThrift exampleSerialize exampleError) ∧
  exampleDeserializeMessage
    (mkMessage (serializeErrorThrift exampleSerialize exampleError) [])
  = Throw runtime_error.
Proof.
  apply (thrift_error_reply_is_rejected exampleCheck exampleSizeof Ok
           exampleSerialize exampleDeserialize
           versionFourCapabilities exampleError []).
  - reflexivity.
  - vm_compute. reflexivity.
Defined.

End Takeover.

(** ** FileInode.cpp

    The model follows the build with an overlay (the code outside
    [#ifdef _WIN32]).  Every function below is one critical section of the
    inode's state lock: it takes the state found when the lock is acquired
    and gives the state left when the lock is released, what it did to the
    outside world meanwhile, and how the caller goes on.  What other threads
    and the stores answer is an input of the step. *)

Module FileInode.

Abbreviation ObjectId := (list byte) (only parsing).

(** A [folly::SharedPromise], by identity. *)
Abbreviation Promise := nat (only parsing).

(** A [BlobInterestHandle], by the id of the blob it registers interest in. *)
Abbreviation InterestHandle := (list byte) (only parsing).

Record Blob := mkBlob {
  getHash : ObjectId;
  getContents : bytes
}.

Definition getSize (blob : Blob) : Z := Z.of_nat (length (getContents blob)).

(** *** CoverageSet

    Modelled from the spec: eden/fs/utils/CoverageSet.h is not among the
    sources.  A set of half-open integer intervals with [add], [covers] and
    [clear]; [covers a b] holds iff the union of the intervals contains
    [a, b) entirely.  An interval without elements adds nothing. *)

Abbreviation CoverageSet := (list (Z * Z)) (only parsing).

Definition CoverageSet_add (a b : Z) (set : CoverageSet) : CoverageSet :=
  if a <? b then (a, b) :: set else set.

Definition CoverageSet_clear (set : CoverageSet) : CoverageSet := [].

Definition CoverageSet_empty (set : CoverageSet) : bool :=
  bool_decide (set = []).

(** Walk to the right from [a]: some interval holds [a], and the set covers
    what is left beyond that interval's end.  Each interval serves once. *)
Fixpoint covers_within (fuel : nat) (set : CoverageSet) (a b : Z) : bool :=
  (b <=? a) ||
  match fuel with
  | O => false
  | S fuel' =>
      existsb (λ i, (i.1 <=? a) && (a <? i.2) && covers_within fuel' set i.2 b) set
  end.

Definition CoverageSet_covers (set : CoverageSet) (a b : Z) : bool :=
  covers_within (length set) set a b.

(** *** FileInodeState *)

Inductive Tag :=
| BLOB_NOT_LOADING
| BLOB_LOADING
| MATERIALIZED_IN_OVERLAY.

#[export] Instance Tag_eq_dec : EqDecision Tag.
Proof. solve_decision. Defined.

Record NonMaterializedState := mkNonMaterializedState {
  hash : ObjectId;
  size : Z
}.

Record State := mkState {
  tag : Tag;
  nonMaterializedState : option NonMaterializedState;
  blobLoadingPromise : option Promise;
  interestHandle : option InterestHandle;
  readByteRanges : CoverageSet
}.

Definition isMaterialized (s : State) : bool :=
  bool_decide (tag s = MATERIALIZED_IN_OVERLAY).

(** [checkInvariants]: [true] when every [XCHECK] passes. *)
Definition checkInvariants (s : State) : bool :=
  match tag s with
  | BLOB_NOT_LOADING =>
      bool_decide (is_Some (nonMaterializedState s)) &&
      bool_decide (blobLoadingPromise s = None)
  | BLOB_LOADING =>
      bool_decide (is_Some (nonMaterializedState s)) &&
      bool_decide (is_Some (blobLoadingPromise s)) &&
      CoverageSet_empty (readByteRanges s)
  | MATERIALIZED_IN_OVERLAY =>
      bool_decide (nonMaterializedState s = None) &&
      bool_decide (blobLoadingPromise s = None) &&
      CoverageSet_empty (readByteRanges s)
  end.

(** What a critical section does outside the state. *)
Inductive Effect :=
| GetBlob (id : ObjectId)                     (* BlobAccess::getBlob *)
| GetBlobSize (id : ObjectId)                 (* ObjectStore::getBlobSize *)
| GetBlobSha1 (id : ObjectId)                 (* ObjectStore::getBlobSha1 *)
| LogAccess
| SetValue (p : Promise) (blob : option Blob) (* the promise is fulfilled *)
| SetException (p : Promise)
| MaterializeInParent
| UpdateJournal
| UpdateAtime
| UpdateMtimeAndCtime.

(** How the caller goes on: with a value, with an exception, or as a
    callback of a future that is not ready yet. *)
Inductive Wait :=
| OnPromise (p : Promise)
| OnBlobSize (id : ObjectId)
| OnBlobSha1 (id : ObjectId).

Inductive Outcome (R : Type) :=
| Returned (r : R)
| Raised (e : exn)
| Suspended (w : Wait).
Arguments Returned {R} r.
Arguments Raised {R} e.
Arguments Suspended {R} w.

(** A critical section: [None] when a fatal check ended the process. *)
Abbreviation Tick R := (option (State * list Effect * Outcome R)) (only parsing).

(** The caller's function of a runner: the state it leaves, its effects, and
    its result. *)
Abbreviation Fn R :=
  (State → option Blob → option (State * list Effect * result R)) (only parsing).

(** What the rest of the process answers during one critical section. *)
Record Env := mkEnv {
  handleObject : option Blob;             (* interestHandle.getObject() *)
  cacheGet : option (Blob * option InterestHandle);  (* BlobCache::get *)
  getBlobThrows : bool;                   (* BlobAccess::getBlob throws *)
  newPromise : Promise;                   (* the promise made by make_unique *)
  createThrows : bool;                    (* the overlay fails to create or truncate *)
  fnThrows : bool;                        (* the overlay fails inside the caller's function *)
  overlayRead : bytes;                    (* OverlayFileAccess::read, readAllContents *)
  overlayFileSize : Z;                    (* OverlayFileAccess::getFileSize *)
  overlayWritten : Z;                     (* OverlayFileAccess::write *)
  overlaySha1 : bytes                     (* OverlayFileAccess::getSha1 *)
}.

Definition setTag (t : Tag) (s : State) : State :=
  mkState t (nonMaterializedState s) (blobLoadingPromise s)
          (interestHandle s) (readByteRanges s).
Definition setNonMaterializedState (n : option NonMaterializedState) (s : State) : State :=
  mkState (tag s) n (blobLoadingPromise s) (interestHandle s) (readByteRanges s).
Definition setBlobLoadingPromise (p : option Promise) (s : State) : State :=
  mkState (tag s) (nonMaterializedState s) p (interestHandle s) (readByteRanges s).
Definition setInterestHandle (h : option InterestHandle) (s : State) : State :=
  mkState (tag s) (nonMaterializedState s) (blobLoadingPromise s) h (readByteRanges s).
Definition setReadByteRanges (r : CoverageSet) (s : State) : State :=
  mkState (tag s) (nonMaterializedState s) (blobLoadingPromise s) (interestHandle s) r.

(** Releasing the lock, by [LockedState::unlock] or by the destructor, runs
    [checkInvariants] first. *)
Definition unlock {R} (s : State) (effects : list Effect) (o : Outcome R) : Tick R :=
  if checkInvariants s then Some (s, effects, o) else None.

Definition outcome_of {R} (r : result R) : Outcome R :=
  match r with
  | Ok v => Returned v
  | Throw e => Raised e
  end.

(** [LockedState::setMaterialized]. *)
Definition setMaterialized (s : State) : State :=
  let s := setNonMaterializedState None s in
  let s := setTag MATERIALIZED_IN_OVERLAY s in
  let s := setInterestHandle None s in
  setReadByteRanges (CoverageSet_clear (readByteRanges s)) s.

(** [LockedState::getCachedBlob]: the state it leaves and the blob, if any.
    [None] when the [XCHECK] fails or the state has no hash to ask for. *)
Definition getCachedBlob (env : Env) (s : State) : option (State * option Blob) :=
  if isMaterialized s then None
  else
    match (if interestHandle s is Some _ then handleObject env else None) with
    | Some blob => Some (s, Some blob)
    | None =>
        _ ← nonMaterializedState s;
        match cacheGet env with
        | Some (object, handle) => Some (setInterestHandle handle s, Some object)
        | None =>
            let s := setInterestHandle None s in
            let s := setReadByteRanges (CoverageSet_clear (readByteRanges s)) s in
            Some (s, None)
        end
    end.

Section Inode.

(** The value that stands for an unknown size in [NonMaterializedState]
    (FileInode.h is not among the sources); a new [NonMaterializedState]
    carries it. *)
Context (kUnknownSize : Z).

(** [FileInodeState(const std::optional<ObjectId>&)] and
    [FileInodeState()]. *)
Definition FileInodeState (h : option ObjectId) : State :=
  let nonMaterializedState :=
    match h with
    | Some h => Some (mkNonMaterializedState h kUnknownSize)
    | None => None
    end in
  mkState (if nonMaterializedState is Some _
           then BLOB_NOT_LOADING else MATERIALIZED_IN_OVERLAY)
          nonMaterializedState None None [].

(** [startLoadingData]: the blob load is started first, then the promise is
    installed and the state becomes [BLOB_LOADING]. *)
Definition startLoadingData {R} (env : Env) (s : State) : Tick R :=
  nm ← nonMaterializedState s;
  if getBlobThrows env then unlock s [] (Raised system_error)
  else
    let s := setBlobLoadingPromise (Some (newPromise env)) s in
    let s := setTag BLOB_LOADING s in
    unlock s [GetBlob (hash nm)] (Suspended (OnPromise (newPromise env))).

(** The callback [startLoadingData] attaches to the blob load; [tryResult]
    is the loaded blob with its interest handle, or [None] for a failed
    load. *)
Definition loadFinished (tryResult : option (Blob * option InterestHandle))
    (s : State) : Tick unit :=
  match tag s with
  | BLOB_NOT_LOADING => None
  | BLOB_LOADING =>
      promise ← blobLoadingPromise s;
      let s := setBlobLoadingPromise None s in
      let s := setTag BLOB_NOT_LOADING s in
      match tryResult with
      | Some (object, handle) =>
          let s := setInterestHandle handle s in
          unlock s [SetValue promise (Some object)] (Returned ())
      | None => unlock s [SetException promise] (Returned ())
      end
  | MATERIALIZED_IN_OVERLAY =>
      if bool_decide (blobLoadingPromise s = None)
      then unlock s [] (Returned ())
      else None
  end.

(** [materializeNow], [materializeAndTruncate] and [truncateInOverlay]:
    the state, or the exception of the overlay. *)
Definition materializeNow (env : Env) (s : State) (blob : Blob) : result State :=
  if createThrows env then Throw system_error
  else Ok (setMaterialized s).

Definition materializeAndTruncate (env : Env) (s : State) : option (result State) :=
  if bool_decide (tag s = MATERIALIZED_IN_OVERLAY) then None
  else if createThrows env then Some (Throw system_error)
  else Some (Ok (setMaterialized s)).

Definition truncateInOverlay (env : Env) (s : State) : option (result State) :=
  if negb (bool_decide (tag s = MATERIALIZED_IN_OVERLAY)) then None
  else if negb (bool_decide (nonMaterializedState s = None)) then None
  else if createThrows env then Some (Throw system_error)
  else Some (Ok s).

(** Running the caller's function and releasing the lock after it;
    [before] is what the runner did first, [after] what its scope guards do
    once the lock is released. *)
Definition invoke {R} (before : list Effect) (fn : Fn R) (s : State)
    (blob : option Blob) (after : list Effect) : Tick R :=
  '(s, effects, r) ← fn s blob;
  unlock s (before ++ effects ++ after) (outcome_of r).

(** [runWhileDataLoaded]. *)
Definition runWhileDataLoaded {R} (env : Env) (s : State) (blob : option Blob)
    (fn : Fn R) : Tick R :=
  match tag s with
  | BLOB_NOT_LOADING =>
      '(s, blob) ← (if blob is Some _ then Some (s, blob) else getCachedBlob env s);
      match blob with
      | Some _ => invoke [LogAccess] fn s blob []
      | None => startLoadingData env s
      end
  | BLOB_LOADING =>
      promise ← blobLoadingPromise s;
      unlock s [] (Suspended (OnPromise promise))
  | MATERIALIZED_IN_OVERLAY => invoke [LogAccess] fn s None []
  end.

(** [runWhileMaterialized]; the caller's function is never given a blob. *)
Definition runWhileMaterialized {R} (env : Env) (s : State) (blob : option Blob)
    (fn : Fn R) : Tick R :=
  match tag s with
  | BLOB_NOT_LOADING =>
      '(s, blob) ← (if blob is Some _ then Some (s, blob) else getCachedBlob env s);
      match blob with
      | Some b =>
          match materializeNow env s b with
          | Throw e => unlock s [] (Raised e)
          | Ok s => invoke [LogAccess] fn s None [MaterializeInParent]
          end
      | None => startLoadingData env s
      end
  | BLOB_LOADING =>
      promise ← blobLoadingPromise s;
      unlock s [] (Suspended (OnPromise promise))
  | MATERIALIZED_IN_OVERLAY => invoke [LogAccess] fn s None []
  end.

(** [truncateAndRun]: on the way out the parent is told first, and then the
    loading promise, if there was one, is fulfilled with no blob. *)
Definition truncateAndRun {R} (env : Env) (s : State) (fn : Fn R) : Tick R :=
  match tag s with
  | BLOB_NOT_LOADING | BLOB_LOADING =>
      r ← materializeAndTruncate env s;
      match r with
      | Throw e => unlock s [] (Raised e)
      | Ok s =>
          let loadingPromise := blobLoadingPromise s in
          let s := setBlobLoadingPromise None s in
          invoke [] fn s None
                 (MaterializeInParent ::
                  match loadingPromise with
                  | Some p => [SetValue p None]
                  | None => []
                  end)
      end
  | MATERIALIZED_IN_OVERLAY =>
      r ← truncateInOverlay env s;
      match r with
      | Throw e => unlock s [] (Raised e)
      | Ok s => invoke [] fn s None []
      end
  end.

(** *** The operations *)

(** The part of [struct stat] the inode computes: the size, and the block
    count [updateBlockCount] derives from it. *)
Record StatData := mkStatData {
  st_size : Z;
  st_blocks : Z
}.

(** Conversion of a [uint64_t] to the signed [off_t]. *)
Definition to_off_t (z : Z) : Z := (z + 2 ^ 63) mod 2 ^ 64 - 2 ^ 63.

Definition kBlockSize : Z := 512.

Definition updateBlockCount (st : StatData) : StatData :=
  mkStatData (st_size st) (Z.quot (st_size st + kBlockSize - 1) kBlockSize).

Definition statWithSize (size : Z) : StatData :=
  updateBlockCount (mkStatData (to_off_t size) 0).

(** The function [read] hands to [runWhileDataLoaded]: the buffer and the
    end-of-file flag.  [size] is a [size_t] and [off] an [off_t]. *)
Definition readFn (env : Env) (size off : Z) : Fn (bytes * bool) := λ s blob,
  if bool_decide (tag s = MATERIALIZED_IN_OVERLAY) then
    if fnThrows env then Some (s, [], Throw system_error)
    else
      let buf := overlayRead env in
      let eof := negb (bool_decide (size = 0)) && bool_decide (buf = []) in
      Some (s, [UpdateAtime], Ok (buf, eof))
  else
    blob ← blob;
    let s := setReadByteRanges
               (CoverageSet_add (u64 off) (u64 (off + size)) (readByteRanges s)) s in
    let s :=
      if CoverageSet_covers (readByteRanges s) 0 (getSize blob)
      then setReadByteRanges (CoverageSet_clear (readByteRanges s))
                             (setInterestHandle None s)
      else s in
    let buf := getContents blob in
    if negb (bool_decide (u64 off <= Z.of_nat (length buf)))  (* !canAdvance(off) *)
    then Some (s, [UpdateAtime], Ok ([], true))
    else
      let rest := drop (Z.to_nat (u64 off)) buf in               (* skip(off) *)
      let result := take (Z.to_nat size) rest in                 (* cloneAtMost *)
      let isAtEnd := bool_decide (drop (Z.to_nat size) rest = []) in
      Some (s, [UpdateAtime], Ok (result, isAtEnd)).

Definition read (env : Env) (size off : Z) (s : State) (blob : option Blob)
  : Tick (bytes * bool) :=
  runWhileDataLoaded env s blob (readFn env size off).

Definition readAllFn (env : Env) : Fn bytes := λ s blob,
  match tag s with
  | MATERIALIZED_IN_OVERLAY =>
      if fnThrows env then Some (s, [], Throw system_error)
      else Some (s, [UpdateAtime], Ok (overlayRead env))
  | BLOB_NOT_LOADING =>
      blob ← blob;
      Some (s, [UpdateAtime], Ok (getContents blob))
  | BLOB_LOADING => None
  end.

Definition readAll (env : Env) (s : State) (blob : option Blob) : Tick bytes :=
  runWhileDataLoaded env s blob (readAllFn env).

(** [writeImpl]: the number of bytes the overlay wrote. *)
Definition writeImpl (env : Env) : Fn Z := λ s _,
  if fnThrows env then Some (s, [], Throw system_error)
  else Some (s, [UpdateMtimeAndCtime; UpdateJournal], Ok (overlayWritten env)).

Definition write (env : Env) (s : State) (blob : option Blob) : Tick Z :=
  runWhileMaterialized env s blob (writeImpl env).

(** The function of [setattr]. *)
Definition setAttrs (env : Env) : Fn StatData := λ s _,
  if fnThrows env then Some (s, [], Throw system_error)
  else Some (s, [UpdateJournal],
             Ok (updateBlockCount (mkStatData (overlayFileSize env) 0))).

(** [setattr]; [underDotEden] tells whether the parent is the [.eden]
    directory, [desiredSize] is [desired.size]. *)
Definition setattr (env : Env) (underDotEden : bool) (desiredSize : option Z)
    (s : State) (blob : option Blob) : Tick StatData :=
  if underDotEden then Some (s, [], Raised inode_error)
  else
    let truncate := bool_decide (desiredSize = Some 0) in
    if truncate then truncateAndRun env s (setAttrs env)
    else runWhileMaterialized env s blob (setAttrs env).

Definition fallocate (env : Env) (s : State) (blob : option Blob) : Tick unit :=
  runWhileMaterialized env s blob
    (λ s _, if fnThrows env then Some (s, [], Throw system_error)
            else Some (s, [], Ok ())).

Definition fsync (env : Env) (s : State) : Tick unit :=
  if isMaterialized s
  then if fnThrows env then unlock s [] (Raised system_error)
       else unlock s [] (Returned ())
  else unlock s [] (Returned ()).

Definition getSha1 (env : Env) (s : State) : Tick bytes :=
  match tag s with
  | BLOB_NOT_LOADING | BLOB_LOADING =>
      nm ← nonMaterializedState s;
      unlock s [LogAccess; GetBlobSha1 (hash nm)] (Suspended (OnBlobSha1 (hash nm)))
  | MATERIALIZED_IN_OVERLAY =>
      if fnThrows env then unlock s [LogAccess] (Raised system_error)
      else unlock s [LogAccess] (Returned (overlaySha1 env))
  end.

(** [isSameAsFast], under the read lock; [sameEntryType] tells whether the
    entry type is the one of the inode's mode. *)
Definition isSameAsFast (blobID : ObjectId) (sameEntryType : bool) (s : State)
  : option bool :=
  if negb sameEntryType then Some false
  else
    match nonMaterializedState s with
    | Some nm => if bool_decide (hash nm = blobID) then Some true else None
    | None => None
    end.

(** [stat], up to the point where it returns or leaves the size to the
    object store. *)
Definition stat (env : Env) (s : State) : Tick StatData :=
  if isMaterialized s then
    if fnThrows env then unlock s [] (Raised system_error)
    else unlock s [] (Returned (updateBlockCount (mkStatData (overlayFileSize env) 0)))
  else
    nm ← nonMaterializedState s;
    if negb (bool_decide (size nm = kUnknownSize))
    then unlock s [] (Returned (statWithSize (size nm)))
    else unlock s [GetBlobSize (hash nm)] (Suspended (OnBlobSize (hash nm))).

(** The callback of [stat] on the size the object store found. *)
Definition statFetched (fetched : Z) (s : State) : Tick StatData :=
  if negb (isMaterialized s) then
    nm ← nonMaterializedState s;
    let s := setNonMaterializedState
               (Some (mkNonMaterializedState (hash nm) fetched)) s in
    unlock s [] (Returned (statWithSize fetched))
  else unlock s [] (Returned (statWithSize fetched)).

(** *** The inode as a transition system

    A call of an operation, or the callback of a future.  The [blob] of an
    operation that runs under a runner is what the runner is called with:
    nothing on the first call, the value of the loading promise when the
    operation goes on after a load. *)
Inductive Op :=
| Read (size off : Z) (blob : option Blob)
| ReadAll (blob : option Blob)
| Write (blob : option Blob)
| Setattr (underDotEden : bool) (desiredSize : option Z) (blob : option Blob)
| Fallocate (blob : option Blob)
| Fsync
| GetSha1
| Stat
| StatFetched (fetched : Z)
| LoadFinished (tryResult : option (Blob * option InterestHandle)).

Definition leaves {R} (t : Tick R) : option (State * list Effect) :=
  '(s, effects, _) ← t; Some (s, effects).

Definition exec (env : Env) (op : Op) (s : State) : option (State * list Effect) :=
  match op with
  | Read size off blob => leaves (read env size off s blob)
  | ReadAll blob => leaves (readAll env s blob)
  | Write blob => leaves (write env s blob)
  | Setattr underDotEden desiredSize blob =>
      leaves (setattr env underDotEden desiredSize s blob)
  | Fallocate blob => leaves (fallocate env s blob)
  | Fsync => leaves (fsync env s)
  | GetSha1 => leaves (getSha1 env s)
  | Stat => leaves (stat env s)
  | StatFetched fetched => leaves (statFetched fetched s)
  | LoadFinished tryResult => leaves (loadFinished tryResult s)
  end.

(** The states an inode can be in: those of the constructors, and those an
    operation or a callback leaves. *)
Inductive reachable : State → Prop :=
| reachable_init (h : option ObjectId) : reachable (FileInodeState h)
| reachable_step (s s' : State) (env : Env) (op : Op) (effects : list Effect) :
    reachable s → exec env op s = Some (s', effects) → reachable s'.

(** *** The state invariants *)

(** The table of states: what [checkInvariants] checks, and that a
    materialized inode holds no interest handle. *)
Definition Inv (s : State) : Prop :=
  match tag s with
  | BLOB_NOT_LOADING =>
      is_Some (nonMaterializedState s) ∧ blobLoadingPromise s = None
  | BLOB_LOADING =>
      is_Some (nonMaterializedState s) ∧ is_Some (blobLoadingPromise s) ∧
      readByteRanges s = []
  | MATERIALIZED_IN_OVERLAY =>
      nonMaterializedState s = None ∧ blobLoadingPromise s = None ∧
      interestHandle s = None ∧ readByteRanges s = []
  end.

(** A caller's function that keeps the invariants whenever a runner calls
    it, which no runner does while the blob is loading. *)
Definition keeps_Inv {R} (fn : Fn R) : Prop :=
  ∀ s blob s' effects r,
    Inv s → tag s ≠ BLOB_LOADING → fn s blob = Some (s', effects, r) → Inv s'.

Ltac destruct_state s :=
  let t := fresh "t" in
  destruct s as [t ? ? ? ?]; destruct t.

Ltac inv_cases :=
  repeat match goal with
    | H : Inv _ |- _ => unfold Inv in H; cbn in H
    | H : _ ∧ _ |- _ => destruct H
    | H : is_Some _ |- _ => destruct H
    | H : Some _ = None |- _ => discriminate H
    | H : None = Some _ |- _ => discriminate H
    | H : (?x ≫= _) = Some _ |- _ =>
        destruct x eqn:?; [cbn [mbind option_bind] in H | discriminate H]
    | H : context [if ?b then _ else _] |- _ => destruct b eqn:?
    | H : context [match ?x with _ => _ end] |- _ => destruct x eqn:?
    | |- _ => progress simplify_eq/=
    end.

Lemma Inv_checkInvariants (s : State) : Inv s → checkInvariants s = true.
Proof.
  unfold Inv, checkInvariants, CoverageSet_empty.
  destruct (tag s); intros H; inv_cases;
    repeat (apply andb_true_intro; split); by apply bool_decide_eq_true_2.
Qed.

Lemma Inv_FileInodeState (h : option ObjectId) : Inv (FileInodeState h).
Proof. destruct h; cbn; eauto. Qed.

Lemma unlock_Some {R} (s s' : State) (effects effects' : list Effect)
    (o o' : Outcome R) :
  unlock s effects o = Some (s', effects', o') → s' = s.
Proof. unfold unlock. by destruct (checkInvariants s); intros [= <- _ _]. Qed.

Lemma Inv_setMaterialized (s : State) :
  blobLoadingPromise s = None → Inv (setMaterialized s).
Proof. intros Hp. unfold Inv. cbn. by rewrite Hp. Qed.

Lemma getCachedBlob_Inv (env : Env) (s s' : State) (blob : option Blob) :
  Inv s → tag s = BLOB_NOT_LOADING → getCachedBlob env s = Some (s', blob) →
  Inv s' ∧ tag s' = BLOB_NOT_LOADING ∧ (blob = None → readByteRanges s' = []).
Proof.
  intros HI Ht Hget. unfold getCachedBlob, isMaterialized in Hget.
  destruct_state s; try done. clear Ht.
  cbn in Hget. inv_cases; unfold Inv; cbn; naive_solver.
Qed.

Lemma startLoadingData_Inv {R} (env : Env) (s s' : State)
    (effects : list Effect) (o : Outcome R) :
  Inv s → tag s = BLOB_NOT_LOADING → readByteRanges s = [] →
  startLoadingData env s = Some (s', effects, o) → Inv s'.
Proof.
  intros HI Ht Hr Hstart. unfold startLoadingData in Hstart.
  destruct_state s; try done. cbn in Hr. subst.
  destruct (nonMaterializedState _) eqn:Hnm; [|done]. cbn in Hstart.
  destruct (getBlobThrows env); apply unlock_Some in Hstart as ->; [done|].
  unfold Inv. cbn in *. rewrite Hnm. eauto.
Qed.

Lemma invoke_Inv {R} (before after : list Effect) (fn : Fn R) (s s' : State)
    (blob : option Blob) (effects : list Effect) (o : Outcome R) :
  keeps_Inv fn → Inv s → tag s ≠ BLOB_LOADING →
  invoke before fn s blob after = Some (s', effects, o) → Inv s'.
Proof.
  intros Hfn HI Ht Hinv. unfold invoke in Hinv.
  destruct (fn s blob) as [[[s1 e1] r1]|] eqn:Hcall; [|done]. cbn in Hinv.
  apply unlock_Some in Hinv as ->. by eapply Hfn.
Qed.

Lemma runWhileDataLoaded_Inv {R} (env : Env) (fn : Fn R) (s s' : State)
    (blob : option Blob) (effects : list Effect) (o : Outcome R) :
  keeps_Inv fn → Inv s →
  runWhileDataLoaded env s blob fn = Some (s', effects, o) → Inv s'.
Proof.
  intros Hfn HI Hrun. unfold runWhileDataLoaded in Hrun.
  destruct (tag s) eqn:Ht.
  - destruct blob as [b|].
    + cbn in Hrun. eapply invoke_Inv; [done..| |done]. by rewrite Ht.
    + destruct (getCachedBlob env s) as [[s1 [b|]]|] eqn:Hget; [| |done];
        cbn in Hrun;
        apply getCachedBlob_Inv in Hget as (HI1 & Ht1 & Hr1); try done.
      * eapply invoke_Inv; [done..| |done]. by rewrite Ht1.
      * eapply startLoadingData_Inv; [done..|by apply Hr1|done].
  - destruct (blobLoadingPromise s); [|done]. cbn in Hrun.
    by apply unlock_Some in Hrun as ->.
  - eapply invoke_Inv; [done..| |done]. by rewrite Ht.
Qed.

Lemma runWhileMaterialized_Inv {R} (env : Env) (fn : Fn R) (s s' : State)
    (blob : option Blob) (effects : list Effect) (o : Outcome R) :
  keeps_Inv fn → Inv s →
  runWhileMaterialized env s blob fn = Some (s', effects, o) → Inv s'.
Proof.
  intros Hfn HI Hrun. unfold runWhileMaterialized in Hrun.
  assert (Hmat : ∀ s1 b, Inv s1 → tag s1 = BLOB_NOT_LOADING →
            match materializeNow env s1 b with
            | Throw e => unlock s1 [] (Raised e)
            | Ok s2 => invoke [LogAccess] fn s2 None [MaterializeInParent]
            end = Some (s', effects, o) → Inv s').
  { intros s1 b HI1 Ht1 Hm. unfold materializeNow in Hm.
    destruct (createThrows env).
    - by apply unlock_Some in Hm as ->.
    - eapply invoke_Inv; [done| | |done]; [|done].
      apply Inv_setMaterialized. unfold Inv in HI1. rewrite Ht1 in HI1.
      by destruct HI1. }
  destruct (tag s) eqn:Ht.
  - destruct blob as [b|].
    + cbn in Hrun. by eapply Hmat.
    + destruct (getCachedBlob env s) as [[s1 [b|]]|] eqn:Hget; [| |done];
        cbn in Hrun;
        apply getCachedBlob_Inv in Hget as (HI1 & Ht1 & Hr1); try done.
      * by eapply Hmat.
      * eapply startLoadingData_Inv; [done..|by apply Hr1|done].
  - destruct (blobLoadingPromise s); [|done]. cbn in Hrun.
    by apply unlock_Some in Hrun as ->.
  - eapply invoke_Inv; [done..| |done]. by rewrite Ht.
Qed.

Lemma truncateAndRun_Inv {R} (env : Env) (fn : Fn R) (s s' : State)
    (effects : list Effect) (o : Outcome R) :
  keeps_Inv fn → Inv s →
  truncateAndRun env s fn = Some (s', effects, o) → Inv s'.
Proof.
  intros Hfn HI Hrun. unfold truncateAndRun in Hrun.
  assert (Hnew : tag s ≠ MATERIALIZED_IN_OVERLAY →
            (r ← materializeAndTruncate env s;
             match r with
             | Throw e => unlock s [] (Raised e)
             | Ok s0 =>
                 let loadingPromise := blobLoadingPromise s0 in
                 let s1 := setBlobLoadingPromise None s0 in
                 invoke [] fn s1 None
                   (MaterializeInParent ::
                    match loadingPromise with
                    | Some p => [SetValue p None]
                    | None => []
                    end)
             end) = Some (s', effects, o) → Inv s').
  { intros Ht Hm. unfold materializeAndTruncate in Hm.
    rewrite bool_decide_eq_false_2 in Hm by done.
    destruct (createThrows env); cbn -[invoke unlock] in Hm.
    - by apply unlock_Some in Hm as ->.
    - eapply invoke_Inv; [done| | |done]; done. }
  destruct (tag s) eqn:Ht; [by apply Hnew..|].
  unfold truncateInOverlay in Hrun. rewrite Ht in Hrun.
  rewrite bool_decide_eq_true_2 in Hrun by done.
  cbn -[invoke unlock] in Hrun.
  destruct (bool_decide (nonMaterializedState s = None)); [|done].
  cbn -[invoke unlock] in Hrun.
  destruct (createThrows env); cbn -[invoke unlock] in Hrun.
  - by apply unlock_Some in Hrun as ->.
  - eapply invoke_Inv; [done..| |done]. by rewrite Ht.
Qed.

Lemma keeps_Inv_unchanged {R} (fn : Fn R) :
  (∀ s blob s' effects r, fn s blob = Some (s', effects, r) → s' = s) →
  keeps_Inv fn.
Proof. intros Hsame s blob s' effects r HI _ Hcall. by apply Hsame in Hcall as ->. Qed.

Lemma keeps_Inv_readFn (env : Env) (size off : Z) : keeps_Inv (readFn env size off).
Proof.
  intros s blob s' effects r HI Ht Hcall. unfold readFn in Hcall.
  case_bool_decide as Hmat.
  - destruct (fnThrows env); by simplify_eq.
  - destruct blob as [b|]; [|done]. cbn [mbind option_bind] in Hcall.
    assert (Htag : tag s = BLOB_NOT_LOADING) by by destruct (tag s).
    unfold Inv in HI. rewrite Htag in HI.
    destruct (negb _), (CoverageSet_covers _ _ _); simplify_eq;
      unfold Inv; cbn; by rewrite Htag.
Qed.

Lemma keeps_Inv_readAllFn (env : Env) : keeps_Inv (readAllFn env).
Proof.
  apply keeps_Inv_unchanged. intros s blob s' effects r Hcall.
  unfold readAllFn in Hcall. by inv_cases.
Qed.

Lemma keeps_Inv_writeImpl (env : Env) : keeps_Inv (writeImpl env).
Proof.
  apply keeps_Inv_unchanged. intros s blob s' effects r Hcall.
  unfold writeImpl in Hcall. by inv_cases.
Qed.

Lemma keeps_Inv_setAttrs (env : Env) : keeps_Inv (setAttrs env).
Proof.
  apply keeps_Inv_unchanged. intros s blob s' effects r Hcall.
  unfold setAttrs in Hcall. by inv_cases.
Qed.

Lemma leaves_Some {R} (t : Tick R) (s' : State) (effects : list Effect) :
  leaves t = Some (s', effects) → ∃ o, t = Some (s', effects, o).
Proof.
  unfold leaves. destruct t as [[[s1 e1] o1]|]; [|done].
  intros [= <- <-]. by exists o1.
Qed.

(** Every operation and every callback keeps the invariants. *)
Lemma exec_Inv (env : Env) (op : Op) (s s' : State) (effects : list Effect) :
  Inv s → exec env op s = Some (s', effects) → Inv s'.
Proof.
  intros HI Hexec. destruct op; cbn [exec] in Hexec;
    apply leaves_Some in Hexec as [o Hexec].
  - eapply runWhileDataLoaded_Inv; [apply keeps_Inv_readFn|done..].
  - eapply runWhileDataLoaded_Inv; [apply keeps_Inv_readAllFn|done..].
  - eapply runWhileMaterialized_Inv; [apply keeps_Inv_writeImpl|done..].
  - unfold setattr in Hexec. destruct underDotEden; [by simplify_eq|].
    destruct (bool_decide (desiredSize = Some 0)).
    + eapply truncateAndRun_Inv; [apply keeps_Inv_setAttrs|done..].
    + eapply runWhileMaterialized_Inv; [apply keeps_Inv_setAttrs|done..].
  - eapply runWhileMaterialized_Inv; [|done..].
    apply keeps_Inv_unchanged. intros ? ? ? ? ? Hcall. by inv_cases.
  - unfold fsync in Hexec.
    destruct (isMaterialized s); [destruct (fnThrows env)|];
      by apply unlock_Some in Hexec as ->.
  - unfold getSha1 in Hexec.
    destruct (tag s); [destruct (nonMaterializedState s); [|done]..|
                        destruct (fnThrows env)];
      cbn in Hexec; by apply unlock_Some in Hexec as ->.
  - unfold stat in Hexec.
    destruct (isMaterialized s); [destruct (fnThrows env)|
      destruct (nonMaterializedState s); [cbn in Hexec|done];
      destruct (negb _)];
      by apply unlock_Some in Hexec as ->.
  - unfold statFetched, isMaterialized in Hexec.
    destruct_state s; cbn in Hexec; inv_cases;
      apply unlock_Some in Hexec as ->; unfold Inv; cbn; naive_solver.
  - unfold loadFinished in Hexec.
    destruct_state s; cbn in Hexec; inv_cases;
      apply unlock_Some in Hexec as ->; unfold Inv; cbn; naive_solver.
Qed.

Lemma reachable_Inv (s : State) : reachable s → Inv s.
Proof.
  induction 1 as [h|s s' env op effects _ IH Hexec].
  - apply Inv_FileInodeState.
  - by eapply exec_Inv.
Qed.

(** A materialized state holds nothing of the blob it came from. *)
Definition materialized_bare (s : State) : Prop :=
  tag s = MATERIALIZED_IN_OVERLAY →
  nonMaterializedState s = None ∧ blobLoadingPromise s = None ∧
  interestHandle s = None ∧ readByteRanges s = [].

Lemma Inv_materialized_bare (s : State) : Inv s → materialized_bare s.
Proof. unfold Inv, materialized_bare. intros HI Ht. by rewrite Ht in HI. Qed.

(** C2. In every state an inode can reach, if the tag is
    [MATERIALIZED_IN_OVERLAY] then there is no [nonMaterializedState], no
    loading promise, no interest handle and no read byte range; and the
    state that any operation (read, readAll, write, setattr, fallocate,
    fsync, getSha1, stat) or callback (the size of [stat], the end of a blob
    load) leaves is such a state again, and passes [checkInvariants]. *)
Theorem materialized_state_invariant (s : State) :
  reachable s →
  materialized_bare s ∧
  ∀ env op s' effects,
    exec env op s = Some (s', effects) →
    materialized_bare s' ∧ checkInvariants s' = true.
Proof.
  intros Hreach. split.
  - by apply Inv_materialized_bare, reachable_Inv.
  - intros env op s' effects Hexec.
    assert (Inv s') by (eapply exec_Inv; [by apply reachable_Inv|done]).
    split; [by apply Inv_materialized_bare | by apply Inv_checkInvariants].
Qed.

(** *** Reading at or past the end of the blob *)

Definition INT64_MAX : Z := 9223372036854775807.

Lemma readFn_past_end (env : Env) (size off : Z) (s : State) (blob : Blob) :
  tag s = BLOB_NOT_LOADING → getSize blob <= off <= INT64_MAX →
  ∃ s', readFn env size off s (Some blob) = Some (s', [UpdateAtime], Ok ([], true))
        ∧ tag s' = tag s
        ∧ nonMaterializedState s' = nonMaterializedState s
        ∧ blobLoadingPromise s' = blobLoadingPromise s.
Proof.
  intros Ht [Hlo Hhi]. unfold readFn.
  rewrite bool_decide_eq_false_2 by by rewrite Ht.
  cbn [mbind option_bind].
  assert (Hoff : u64 off = off).
  { unfold u64. apply Z.mod_small. unfold getSize, INT64_MAX in *. lia. }
  rewrite Hoff. unfold getSize in Hlo.
  set (s1 := if CoverageSet_covers _ _ _ then _ else _).
  assert (Hs1 : tag s1 = tag s
                ∧ nonMaterializedState s1 = nonMaterializedState s
                ∧ blobLoadingPromise s1 = blobLoadingPromise s).
  { subst s1. by destruct (CoverageSet_covers _ _ _). }
  exists s1. split; [|done].
  case_bool_decide as Hadv; cbn [negb]; [|done].
  assert (Heq : off = Z.of_nat (length (getContents blob))) by lia.
  rewrite Heq, Nat2Z.id, drop_all, take_nil, drop_nil.
  by rewrite bool_decide_eq_true_2.
Qed.

(** C9. A read of a non-materialized file that has the blob in hand, as
    the value of the loading promise or from the cache, at an offset at or
    past the size of the blob, returns an empty buffer and reports the end
    of the file, whatever the requested size. *)
Theorem read_past_end_of_blob
    (env : Env) (size off : Z) (s : State) (maybeBlob : option Blob) (blob : Blob) :
  Inv s → tag s = BLOB_NOT_LOADING →
  getSize blob <= off <= INT64_MAX →
  maybeBlob = Some blob ∨
    (maybeBlob = None ∧ ∃ s1, getCachedBlob env s = Some (s1, Some blob)) →
  ∃ s' effects,
    read env size off s maybeBlob = Some (s', effects, Returned ([], true))
    ∧ tag s' = BLOB_NOT_LOADING.
Proof.
  intros HI Ht Hoff Hblob. unfold read, runWhileDataLoaded. rewrite Ht.
  assert (Hrun : ∀ s1, Inv s1 → tag s1 = BLOB_NOT_LOADING →
            ∃ s' effects,
              invoke [LogAccess] (readFn env size off) s1 (Some blob) []
              = Some (s', effects, Returned ([], true))
              ∧ tag s' = BLOB_NOT_LOADING).
  { intros s1 HI1 Ht1.
    destruct (readFn_past_end env size off s1 blob Ht1 Hoff)
      as (s' & Hfn & Htag & Hnm & Hp).
    exists s', ([LogAccess] ++ [UpdateAtime] ++ []).
    unfold invoke. rewrite Hfn. cbn [mbind option_bind]. unfold unlock.
    rewrite Inv_checkInvariants; [by rewrite Htag, Ht1|].
    unfold Inv in *. rewrite Htag, Hnm, Hp. by rewrite Ht1 in HI1 |- *. }
  destruct Hblob as [->|[-> [s1 Hget]]].
  - cbn [mbind option_bind]. by apply Hrun.
  - rewrite Hget. cbn [mbind option_bind].
    apply getCachedBlob_Inv in Hget as (HI1 & Ht1 & _); [|done..].
    by apply Hrun.
Qed.

(** *** The size [stat] remembers *)

(** The ids a critical section asked the object store the size of. *)
Definition requestedSizes (effects : list Effect) : list ObjectId :=
  omap (λ e, match e with GetBlobSize id => Some id | _ => None end) effects.

(** A critical section that keeps or drops the [nonMaterializedState] as it
    found it, and asks for no blob size. *)
Definition frame (s s' : State) (effects : list Effect) : Prop :=
  (nonMaterializedState s' = nonMaterializedState s
   ∨ nonMaterializedState s' = None) ∧
  requestedSizes effects = [].

Definition frame_fn {R} (fn : Fn R) : Prop :=
  ∀ s blob s' effects r,
    fn s blob = Some (s', effects, r) →
    nonMaterializedState s' = nonMaterializedState s ∧ requestedSizes effects = [].

Lemma requestedSizes_app (e1 e2 : list Effect) :
  requestedSizes (e1 ++ e2) = requestedSizes e1 ++ requestedSizes e2.
Proof. apply omap_app. Qed.

Lemma getCachedBlob_frame (env : Env) (s s' : State) (blob : option Blob) :
  getCachedBlob env s = Some (s', blob) →
  nonMaterializedState s' = nonMaterializedState s.
Proof.
  unfold getCachedBlob. intros Hget.
  destruct (isMaterialized s); [done|].
  destruct (if interestHandle s is Some _ then handleObject env else None);
    [by simplify_eq|].
  destruct (nonMaterializedState s) eqn:Hnm; [|done].
  cbn [mbind option_bind] in Hget.
  destruct (cacheGet env) as [[object handle]|]; by simplify_eq.
Qed.

Lemma startLoadingData_frame {R} (env : Env) (s s' : State)
    (effects : list Effect) (o : Outcome R) :
  startLoadingData env s = Some (s', effects, o) → frame s s' effects.
Proof.
  unfold startLoadingData, unlock. intros Hstart.
  destruct (nonMaterializedState s) eqn:Hnm; [|done].
  cbn [mbind option_bind] in Hstart.
  destruct (getBlobThrows env), (checkInvariants _); simplify_eq;
    split; try done; left; by rewrite ?Hnm.
Qed.

Lemma invoke_frame {R} (before after : list Effect) (fn : Fn R) (s s' : State)
    (blob : option Blob) (effects : list Effect) (o : Outcome R) :
  frame_fn fn → requestedSizes before = [] → requestedSizes after = [] →
  invoke before fn s blob after = Some (s', effects, o) →
  nonMaterializedState s' = nonMaterializedState s ∧ requestedSizes effects = [].
Proof.
  intros Hfn Hb Ha Hinv. unfold invoke in Hinv.
  destruct (fn s blob) as [[[s1 e1] r1]|] eqn:Hcall; [|done].
  cbn [mbind option_bind] in Hinv. unfold unlock in Hinv.
  destruct (checkInvariants s1); [|done]. simplify_eq.
  apply Hfn in Hcall as [Hnm He]. split; [done|].
  by rewrite !requestedSizes_app, Hb, He, Ha.
Qed.

Lemma suspend_frame {R} (s s' : State) (effects : list Effect) (o : Outcome R) :
  (promise ← blobLoadingPromise s; unlock s [] (Suspended (OnPromise promise)))
  = Some (s', effects, o) → frame s s' effects.
Proof.
  destruct (blobLoadingPromise s); [|done]. cbn [mbind option_bind].
  unfold unlock. destruct (checkInvariants s); [|done].
  intros ?; simplify_eq. split; [by left|done].
Qed.

Lemma raise_frame {R} (s s' : State) (e : exn) (effects : list Effect)
    (o : Outcome R) :
  unlock s [] (Raised e) = Some (s', effects, o) → frame s s' effects.
Proof.
  unfold unlock. destruct (checkInvariants s); [|done].
  intros ?; simplify_eq. split; [by left|done].
Qed.

Lemma runWhileDataLoaded_frame {R} (env : Env) (fn : Fn R) (s s' : State)
    (blob : option Blob) (effects : list Effect) (o : Outcome R) :
  frame_fn fn →
  runWhileDataLoaded env s blob fn = Some (s', effects, o) → frame s s' effects.
Proof.
  intros Hfn Hrun. unfold runWhileDataLoaded in Hrun.
  destruct (tag s).
  - destruct blob as [b|].
    + cbn [mbind option_bind] in Hrun.
      apply invoke_frame in Hrun as [Hnm He]; try done. split; [by left|done].
    + destruct (getCachedBlob env s) as [[s1 [b|]]|] eqn:Hget; [| |done];
        cbn [mbind option_bind] in Hrun; apply getCachedBlob_frame in Hget.
      * apply invoke_frame in Hrun as [Hnm He]; try done.
        split; [left; congruence|done].
      * apply startLoadingData_frame in Hrun as [Hnm He].
        split; [|done]. rewrite <- Hget. done.
  - by apply suspend_frame in Hrun.
  - apply invoke_frame in Hrun as [Hnm He]; try done. split; [by left|done].
Qed.

Lemma runWhileMaterialized_frame {R} (env : Env) (fn : Fn R) (s s' : State)
    (blob : option Blob) (effects : list Effect) (o : Outcome R) :
  frame_fn fn →
  runWhileMaterialized env s blob fn = Some (s', effects, o) → frame s s' effects.
Proof.
  intros Hfn Hrun. unfold runWhileMaterialized in Hrun.
  assert (Hmat : ∀ s1 b,
            match materializeNow env s1 b with
            | Throw e => unlock s1 [] (Raised e)
            | Ok s2 => invoke [LogAccess] fn s2 None [MaterializeInParent]
            end = Some (s', effects, o) → frame s1 s' effects).
  { intros s1 b Hm. unfold materializeNow in Hm.
    destruct (createThrows env); [by apply raise_frame in Hm|].
    apply invoke_frame in Hm as [Hnm He]; try done. split; [by right|done]. }
  destruct (tag s).
  - destruct blob as [b|].
    + cbn [mbind option_bind] in Hrun. by eapply Hmat.
    + destruct (getCachedBlob env s) as [[s1 [b|]]|] eqn:Hget; [| |done];
        cbn [mbind option_bind] in Hrun; apply getCachedBlob_frame in Hget.
      * apply Hmat in Hrun as [Hnm He]. split; [|done]. by rewrite <- Hget.
      * apply startLoadingData_frame in Hrun as [Hnm He].
        split; [|done]. by rewrite <- Hget.
  - by apply suspend_frame in Hrun.
  - apply invoke_frame in Hrun as [Hnm He]; try done. split; [by left|done].
Qed.

Lemma truncateAndRun_frame {R} (env : Env) (fn : Fn R) (s s' : State)
    (effects : list Effect) (o : Outcome R) :
  frame_fn fn →
  truncateAndRun env s fn = Some (s', effects, o) → frame s s' effects.
Proof.
  intros Hfn Hrun. unfold truncateAndRun in Hrun.
  assert (Hnew :
            (r ← materializeAndTruncate env s;
             match r with
             | Throw e => unlock s [] (Raised e)
             | Ok s0 =>
                 let loadingPromise := blobLoadingPromise s0 in
                 let s1 := setBlobLoadingPromise None s0 in
                 invoke [] fn s1 None
                   (MaterializeInParent ::
                    match loadingPromise with
                    | Some p => [SetValue p None]
                    | None => []
                    end)
             end) = Some (s', effects, o) → frame s s' effects).
  { intros Hm. unfold materializeAndTruncate in Hm.
    destruct (bool_decide _); [done|].
    destruct (createThrows env); cbn -[invoke unlock] in Hm.
    - by apply raise_frame in Hm.
    - apply invoke_frame in Hm as [Hnm He]; try done.
      + split; [by right|done].
      + by destruct (blobLoadingPromise s). }
  destruct (tag s) eqn:Ht; [by apply Hnew..|].
  unfold truncateInOverlay in Hrun.
  destruct (negb (bool_decide (tag s = _))); [done|].
  destruct (negb (bool_decide (nonMaterializedState s = None))); [done|].
  destruct (createThrows env); cbn -[invoke unlock] in Hrun.
  - by apply raise_frame in Hrun.
  - apply invoke_frame in Hrun as [Hnm He]; try done. split; [by left|done].
Qed.

Lemma frame_fn_readFn (env : Env) (size off : Z) : frame_fn (readFn env size off).
Proof.
  intros s blob s' effects r Hcall. unfold readFn in Hcall.
  case_bool_decide.
  - destruct (fnThrows env); by simplify_eq.
  - destruct blob as [b|]; [|done]. cbn [mbind option_bind] in Hcall.
    by destruct (negb _), (CoverageSet_covers _ _ _); simplify_eq.
Qed.

Lemma frame_fn_unchanged {R} (fn : Fn R) :
  (∀ s blob s' effects r,
      fn s blob = Some (s', effects, r) → s' = s ∧ requestedSizes effects = []) →
  frame_fn fn.
Proof.
  intros Hsame s blob s' effects r Hcall.
  destruct (Hsame _ _ _ _ _ Hcall) as [Heq He]. by rewrite Heq.
Qed.

Lemma frame_fn_readAllFn (env : Env) : frame_fn (readAllFn env).
Proof.
  apply frame_fn_unchanged. intros s blob s' effects r Hcall.
  unfold readAllFn in Hcall. by inv_cases.
Qed.

Lemma frame_fn_writeImpl (env : Env) : frame_fn (writeImpl env).
Proof.
  apply frame_fn_unchanged. intros s blob s' effects r Hcall.
  unfold writeImpl in Hcall. by inv_cases.
Qed.

Lemma frame_fn_setAttrs (env : Env) : frame_fn (setAttrs env).
Proof.
  apply frame_fn_unchanged. intros s blob s' effects r Hcall.
  unfold setAttrs in Hcall. by inv_cases.
Qed.

(** What [stat] does, case by case. *)
Lemma stat_cases (env : Env) (s s' : State) (effects : list Effect)
    (o : Outcome StatData) :
  stat env s = Some (s', effects, o) →
  s' = s ∧
  match nonMaterializedState s with
  | Some nm =>
      isMaterialized s = false →
      if bool_decide (size nm = kUnknownSize)
      then effects = [GetBlobSize (hash nm)] ∧ o = Suspended (OnBlobSize (hash nm))
      else effects = [] ∧ o = Returned (statWithSize (size nm))
  | None => effects = []
  end.
Proof.
  unfold stat, unlock. intros Hstat.
  destruct (isMaterialized s).
  - destruct (fnThrows env), (checkInvariants s); try done;
      injection Hstat as <- <- <-; (split; [done|]);
      by destruct (nonMaterializedState s).
  - destruct (nonMaterializedState s) as [nm|]; [|done].
    cbn [mbind option_bind] in Hstat.
    destruct (bool_decide (size nm = kUnknownSize)); cbn [negb] in Hstat;
      destruct (checkInvariants s); try done;
      by injection Hstat as <- <- <-.
Qed.

(** Every operation but [stat] and its callback is framed. *)
Lemma exec_frame (env : Env) (op : Op) (s s' : State) (effects : list Effect) :
  op ≠ Stat → (∀ fetched, op ≠ StatFetched fetched) →
  exec env op s = Some (s', effects) → frame s s' effects.
Proof.
  intros Hstat Hfetched Hexec. destruct op; cbn [exec] in Hexec;
    apply leaves_Some in Hexec as [o Hexec].
  - eapply runWhileDataLoaded_frame; [apply frame_fn_readFn|done].
  - eapply runWhileDataLoaded_frame; [apply frame_fn_readAllFn|done].
  - eapply runWhileMaterialized_frame; [apply frame_fn_writeImpl|done].
  - unfold setattr in Hexec.
    destruct underDotEden; [simplify_eq; (split; [by left|done])|].
    destruct (bool_decide (desiredSize = Some 0)).
    + eapply truncateAndRun_frame; [apply frame_fn_setAttrs|done].
    + eapply runWhileMaterialized_frame; [apply frame_fn_setAttrs|done].
  - eapply runWhileMaterialized_frame; [|done].
    apply frame_fn_unchanged. intros ? ? ? ? ? Hcall. by inv_cases.
  - unfold fsync, unlock in Hexec.
    destruct (isMaterialized s), (fnThrows env), (checkInvariants s);
      simplify_eq; (split; [by left|done]).
  - unfold getSha1, unlock in Hexec.
    destruct (tag s), (nonMaterializedState s), (fnThrows env),
      (checkInvariants s); simplify_eq/=; (split; [by left|done]).
  - done.
  - by destruct (Hfetched fetched).
  - unfold loadFinished, unlock in Hexec.
    destruct (tag s); [done| |].
    + destruct (blobLoadingPromise s); [|done].
      cbn [mbind option_bind] in Hexec.
      destruct tryResult as [[object handle]|], (checkInvariants _);
        simplify_eq; (split; [by left|done]).
    + destruct (bool_decide _), (checkInvariants s); simplify_eq.
      split; [by left|done].
Qed.

(** The size the object store reports for a blob id: the store is
    content-addressed, so the size is a function of the id. *)
Context (getBlobSize : ObjectId → Z).

(** An inode together with the [getBlobSize] requests of [stat] that are
    still in flight. *)
Record World := mkWorld {
  inode : State;
  sizeFetches : list ObjectId
}.

Inductive wstep : World → World → Prop :=
| wstep_op (w : World) (env : Env) (op : Op) (s' : State) (effects : list Effect) :
    (∀ fetched, op ≠ StatFetched fetched) →
    exec env op (inode w) = Some (s', effects) →
    wstep w (mkWorld s' (sizeFetches w ++ requestedSizes effects))
| wstep_size_fetched (w : World) (i : nat) (id : ObjectId) (s' : State)
    (effects : list Effect) (o : Outcome StatData) :
    sizeFetches w !! i = Some id →
    statFetched (getBlobSize id) (inode w) = Some (s', effects, o) →
    wstep w (mkWorld s' (delete i (sizeFetches w)))
| wstep_size_failed (w : World) (i : nat) (id : ObjectId) :
    sizeFetches w !! i = Some id →
    wstep w (mkWorld (inode w) (delete i (sizeFetches w))).

(** A new inode for the blob [h]. *)
Definition newInode (h : ObjectId) : World :=
  mkWorld (FileInodeState (Some h)) [].

Definition wreachable (h : ObjectId) (w : World) : Prop :=
  rtc wstep (newInode h) w.

Definition WInv (h : ObjectId) (w : World) : Prop :=
  Inv (inode w) ∧
  (∀ nm, nonMaterializedState (inode w) = Some nm →
         hash nm = h ∧ (size nm = kUnknownSize ∨ size nm = getBlobSize h)) ∧
  Forall (λ id, id = h) (sizeFetches w).

(** The size is remembered. *)
Definition sizeKnown (h : ObjectId) (w : World) : Prop :=
  ∀ nm, nonMaterializedState (inode w) = Some nm → size nm = getBlobSize h.

Lemma statFetched_cases (fetched : Z) (s s' : State) (effects : list Effect)
    (o : Outcome StatData) :
  statFetched fetched s = Some (s', effects, o) →
  effects = [] ∧ o = Returned (statWithSize fetched) ∧
  match nonMaterializedState s with
  | Some nm =>
      isMaterialized s = false →
      s' = setNonMaterializedState
             (Some (mkNonMaterializedState (hash nm) fetched)) s
  | None => s' = s
  end.
Proof.
  unfold statFetched, unlock. intros Hf.
  destruct (isMaterialized s); cbn [negb] in Hf.
  - destruct (checkInvariants s); [|done]. injection Hf as <- <- <-.
    by destruct (nonMaterializedState s).
  - destruct (nonMaterializedState s) as [nm|]; [|done].
    cbn [mbind option_bind] in Hf.
    destruct (checkInvariants _); [|done]. by injection Hf as <- <- <-.
Qed.

Lemma Op_Stat_dec (op : Op) : {op = Stat} + {op ≠ Stat}.
Proof. destruct op; (by left) || (by right). Qed.

Lemma wstep_WInv (h : ObjectId) (w w' : World) :
  WInv h w → wstep w w' → WInv h w'.
Proof.
  intros (HI & Hnm & Hpending) Hstep.
  destruct Hstep as [w env op s' effects Hop Hexec
                    |w i id s' effects o Hi Hf
                    |w i id Hi].
  - assert (HI' : Inv s') by by eapply exec_Inv.
    destruct (Op_Stat_dec op) as [->|Hstat].
    + cbn [exec] in Hexec. apply leaves_Some in Hexec as [o Hexec].
      apply stat_cases in Hexec as [-> Hcases].
      split; [done|]. split; [done|]. cbn [sizeFetches].
      apply Forall_app. split; [done|].
      destruct (nonMaterializedState (inode w)) as [nm|] eqn:Hnm0.
      * destruct (isMaterialized (inode w)) eqn:Hmat.
        { unfold isMaterialized in Hmat. apply bool_decide_eq_true in Hmat.
          unfold Inv in HI. rewrite Hmat in HI. destruct HI as [HI _].
          by rewrite HI in Hnm0. }
        specialize (Hcases eq_refl). destruct (Hnm nm eq_refl) as [Hh _].
        destruct (bool_decide _); destruct Hcases as [-> _]; cbn.
        -- by repeat constructor.
        -- constructor.
      * subst. constructor.
    + apply exec_frame in Hexec as [Hkeep Hquiet]; [|done..].
      split; [done|]. cbn [inode sizeFetches]. split.
      * intros nm Hnm'. destruct Hkeep as [Hkeep|Hkeep];
          rewrite Hkeep in Hnm'; [by apply Hnm|done].
      * rewrite Hquiet, app_nil_r. done.
  - assert (id = h) as ->.
    { eapply Forall_lookup_1 in Hpending; [|done]. done. }
    pose proof Hf as Hf'.
    apply statFetched_cases in Hf as (_ & _ & Hcases).
    assert (HI' : Inv s').
    { eapply (exec_Inv (mkEnv None None false 0 false false [] 0 0 [])
                       (StatFetched (getBlobSize h))); [done|].
      cbn [exec]. by rewrite Hf'. }
    split; [done|]. cbn [inode sizeFetches]. split.
    + intros nm' Hnm'.
      destruct (nonMaterializedState (inode w)) as [nm|] eqn:Hnm0.
      * destruct (isMaterialized (inode w)) eqn:Hmat.
        { unfold isMaterialized in Hmat. apply bool_decide_eq_true in Hmat.
          unfold Inv in HI. rewrite Hmat in HI. destruct HI as [HI _].
          by rewrite HI in Hnm0. }
        rewrite (Hcases eq_refl) in Hnm'. cbn in Hnm'.
        injection Hnm' as <-. cbn. destruct (Hnm nm eq_refl) as [Hh _].
        split; [done|by right].
      * subst s'. by rewrite Hnm0 in Hnm'.
    + by apply Forall_delete.
  - split; [done|]. split; [done|]. by apply Forall_delete.
Qed.

Lemma WInv_newInode (h : ObjectId) : WInv h (newInode h).
Proof.
  split; [apply Inv_FileInodeState|]. split; [|constructor].
  intros nm [= <-]. split; [done|by left].
Qed.

Lemma wreachable_WInv (h : ObjectId) (w : World) : wreachable h w → WInv h w.
Proof.
  unfold wreachable. revert w.
  apply (rtc_ind_r (WInv h)); [apply WInv_newInode|].
  intros w1 w2 _ Hstep HW. by eapply wstep_WInv.
Qed.

Lemma wstep_sizeKnown (h : ObjectId) (w w' : World) :
  WInv h w → sizeKnown h w → wstep w w' → sizeKnown h w'.
Proof.
  intros (HI & Hnm & Hpending) Hknown Hstep.
  destruct Hstep as [w env op s' effects Hop Hexec
                    |w i id s' effects o Hi Hf
                    |w i id Hi]; [| |done].
  - destruct (Op_Stat_dec op) as [->|Hstat].
    + cbn [exec] in Hexec. apply leaves_Some in Hexec as [o Hexec].
      by apply stat_cases in Hexec as [-> _].
    + apply exec_frame in Hexec as [Hkeep _]; [|done..].
      intros nm Hnm'. cbn [inode] in Hnm'.
      destruct Hkeep as [Hkeep|Hkeep]; rewrite Hkeep in Hnm';
        [by apply Hknown|done].
  - assert (id = h) as ->.
    { eapply Forall_lookup_1 in Hpending; [|done]. done. }
    apply statFetched_cases in Hf as (_ & _ & Hcases).
    intros nm' Hnm'. cbn [inode] in Hnm'.
    destruct (nonMaterializedState (inode w)) as [nm|] eqn:Hnm0.
    + destruct (isMaterialized (inode w)) eqn:Hmat.
      { unfold isMaterialized in Hmat. apply bool_decide_eq_true in Hmat.
        unfold Inv in HI. rewrite Hmat in HI. destruct HI as [HI _].
        by rewrite HI in Hnm0. }
      rewrite (Hcases eq_refl) in Hnm'. cbn in Hnm'. by injection Hnm' as <-.
    + subst s'. by rewrite Hnm0 in Hnm'.
Qed.

Lemma rtc_wstep_sizeKnown (h : ObjectId) (w w' : World) :
  WInv h w → sizeKnown h w → rtc wstep w w' → WInv h w' ∧ sizeKnown h w'.
Proof.
  intros HW Hknown Hsteps. induction Hsteps as [w|w w1 w2 Hstep _ IH]; [done|].
  apply IH; [by eapply wstep_WInv | by eapply wstep_sizeKnown].
Qed.

(** C8. For an inode of the blob [h], in whatever state it has reached:
    - while its size is unknown, [stat] asks the object store for the size of
      [h], once, and waits for the answer;
    - when the answer comes and the inode is still not materialized, the
      callback stores it in [nonMaterializedState] and [stat] returns it;
    - once the size is stored, and it is not the value that stands for an
      unknown size, every later [stat], after any operations and callbacks,
      asks the object store for nothing, and returns the stored size as long
      as the inode is not materialized. *)
Theorem stat_memoizes_blob_size (h : ObjectId) (w : World) :
  wreachable h w →
  (∀ env nm,
      nonMaterializedState (inode w) = Some nm → size nm = kUnknownSize →
      stat env (inode w)
      = Some (inode w, [GetBlobSize h], Suspended (OnBlobSize h))) ∧
  (isMaterialized (inode w) = false →
   ∃ s', statFetched (getBlobSize h) (inode w)
         = Some (s', [], Returned (statWithSize (getBlobSize h)))
       ∧ nonMaterializedState s'
         = Some (mkNonMaterializedState h (getBlobSize h))) ∧
  (getBlobSize h ≠ kUnknownSize → sizeKnown h w →
   ∀ w' env, rtc wstep w w' →
     ∃ o, stat env (inode w') = Some (inode w', [], o) ∧
          (isMaterialized (inode w') = false →
           o = Returned (statWithSize (getBlobSize h)))).
Proof.
  intros Hreach. pose proof (wreachable_WInv h w Hreach) as HW.
  destruct HW as (HI & Hnm & Hpending).
  assert (Hnonmat : ∀ s, Inv s → isMaterialized s = false →
                         ∃ nm, nonMaterializedState s = Some nm).
  { intros s HIs Hmat. unfold isMaterialized in Hmat.
    apply bool_decide_eq_false in Hmat. unfold Inv in HIs.
    destruct (tag s); [| |done]; by destruct HIs as [[nm ->] _]; exists nm. }
  split; [|split].
  - intros env nm Hnm0 Hsize. destruct (Hnm nm Hnm0) as [Hh _].
    unfold stat, unlock. rewrite (Inv_checkInvariants _ HI).
    destruct (isMaterialized (inode w)) eqn:Hmat.
    { unfold isMaterialized in Hmat. apply bool_decide_eq_true in Hmat.
      unfold Inv in HI. rewrite Hmat in HI. destruct HI as [HI _].
      by rewrite HI in Hnm0. }
    rewrite Hnm0. cbn [mbind option_bind].
    rewrite bool_decide_eq_true_2 by done. cbn [negb]. by rewrite Hh.
  - intros Hmat. destruct (Hnonmat _ HI Hmat) as [nm Hnm0].
    destruct (Hnm nm Hnm0) as [Hh _].
    unfold statFetched, unlock. rewrite Hmat, Hnm0.
    cbn [negb mbind option_bind]. rewrite Hh.
    rewrite Inv_checkInvariants; [by eexists|].
    unfold Inv in *. cbn. unfold isMaterialized in Hmat.
    apply bool_decide_eq_false in Hmat.
    destruct (tag (inode w)); [| |done]; destruct HI as [_ HI];
      (split; [by eexists|done]).
  - intros Hne Hknown w' env Hsteps.
    destruct (rtc_wstep_sizeKnown h w w') as [(HI' & Hnm' & _) Hknown'];
      [done..|].
    unfold stat, unlock. rewrite (Inv_checkInvariants _ HI').
    destruct (isMaterialized (inode w')) eqn:Hmat.
    + destruct (fnThrows env); by eexists.
    + destruct (Hnonmat _ HI' Hmat) as [nm Hnm0]. rewrite Hnm0.
      cbn [mbind option_bind]. rewrite (Hknown' nm Hnm0).
      rewrite bool_decide_eq_false_2 by done. cbn [negb]. by eexists.
Qed.

(** *** What the operations do to the state *)

(** An effect that goes to the object store or the blob cache. *)
Definition asksStore (e : Effect) : bool :=
  match e with
  | GetBlob _ | GetBlobSize _ | GetBlobSha1 _ => true
  | _ => false
  end.

Ltac unfold_exec H :=
  cbn [exec] in H;
  unfold leaves, read, readAll, write, setattr, fallocate, fsync, getSha1,
    stat, statFetched, loadFinished, runWhileDataLoaded, runWhileMaterialized,
    truncateAndRun, startLoadingData, invoke, materializeNow,
    materializeAndTruncate, truncateInOverlay, getCachedBlob, readFn,
    readAllFn, writeImpl, setAttrs, unlock, isMaterialized in H.

(** Materialization is final: in the state [MATERIALIZED_IN_OVERLAY] no
    operation and no callback changes the state, and none of them asks the
    object store for the blob, its size or its hash. *)
Theorem materialization_is_final (env : Env) (op : Op) (s s' : State)
    (effects : list Effect) :
  tag s = MATERIALIZED_IN_OVERLAY →
  exec env op s = Some (s', effects) →
  s' = s ∧ forallb (λ e, negb (asksStore e)) effects = true.
Proof using Type.
  intros Ht Hexec. destruct s as [t nm p ih r]. cbn in Ht. subst t.
  destruct op; unfold_exec Hexec; cbn in Hexec;
    repeat (case_match; simplify_eq/=); simplify_eq/=; done.
Qed.

Definition isMaterializeInParent (e : Effect) : bool :=
  match e with MaterializeInParent => true | _ => false end.

(** The promises a critical section fulfilled, with a value or with an
    exception. *)
Definition fulfilled (effects : list Effect) : list Promise :=
  omap (λ e, match e with
             | SetValue p _ | SetException p => Some p
             | _ => None
             end) effects.

Ltac split_state s HI :=
  destruct s as [[] [?|] [?|] ? ?];
  unfold Inv in HI; cbn in HI;
  try (destruct HI as (? & ? & ? & ?); simplify_eq);
  try (destruct HI as (? & ? & ?); simplify_eq);
  try (destruct HI as ([? ?] & ?); simplify_eq);
  try (destruct HI as ([? ?] & [? ?] & ?); simplify_eq);
  try done.

(** No operation trips a fatal check: from a state that satisfies the
    invariants every operation and every callback runs to the release of
    the lock, but for the completion of a blob load that arrives while the
    state is [BLOB_NOT_LOADING]. *)
Theorem no_fatal_check_fires (env : Env) (op : Op) (s : State) :
  Inv s →
  (∀ tryResult, op = LoadFinished tryResult → tag s ≠ BLOB_NOT_LOADING) →
  is_Some (exec env op s).
Proof using Type.
  intros HI Hload. split_state s HI;
    destruct op; try (by exfalso; eapply Hload);
    cbn [exec]; unfold leaves, read, readAll, write, setattr, fallocate, fsync,
      getSha1, stat, statFetched, loadFinished, runWhileDataLoaded,
      runWhileMaterialized, truncateAndRun, startLoadingData, invoke,
      materializeNow, materializeAndTruncate, truncateInOverlay, getCachedBlob,
      readFn, readAllFn, writeImpl, setAttrs, unlock, isMaterialized; cbn;
    repeat (case_match; simplify_eq/=); try done; try by eexists.
Qed.

(** The parent directory is told that the file is materialized in exactly
    the critical sections that materialize it: those that find the inode
    not materialized and leave it materialized.  This holds also when the
    caller's function fails after the file was created in the overlay. *)
Theorem parent_is_told_when_materializing (env : Env) (op : Op) (s s' : State)
    (effects : list Effect) :
  Inv s →
  exec env op s = Some (s', effects) →
  existsb isMaterializeInParent effects
  = negb (isMaterialized s) && isMaterialized s'.
Proof using Type.
  intros HI Hexec. split_state s HI;
    destruct op; unfold_exec Hexec; cbn in Hexec;
    repeat (case_match; simplify_eq/=); simplify_eq/=; done.
Qed.

(** The loading promise is never dropped and never fulfilled twice.  A
    critical section either leaves the promise as it found it and fulfils
    nothing; or finds none, starts a load and installs a new one; or takes
    the promise out of the state and fulfils it, once. *)
Theorem loading_promise_is_fulfilled_once (env : Env) (op : Op) (s s' : State)
    (effects : list Effect) :
  Inv s →
  exec env op s = Some (s', effects) →
  (blobLoadingPromise s' = blobLoadingPromise s ∧ fulfilled effects = []) ∨
  (blobLoadingPromise s = None ∧ blobLoadingPromise s' = Some (newPromise env) ∧
   tag s' = BLOB_LOADING ∧ fulfilled effects = [] ∧
   ∃ nm, nonMaterializedState s = Some nm ∧ effects = [GetBlob (hash nm)]) ∨
  (∃ p, blobLoadingPromise s = Some p ∧ blobLoadingPromise s' = None ∧
        fulfilled effects = [p]).
Proof using Type.
  intros HI Hexec. split_state s HI;
    destruct op; unfold_exec Hexec; cbn in Hexec;
    repeat (case_match; simplify_eq/=); simplify_eq/=;
    first [ by left
          | by right; left; repeat split; try done; eexists
          | by right; right; eexists ].
Qed.

(** The blob an inode stands for never changes: whenever an operation or a
    callback leaves a [nonMaterializedState], there was one before, with
    the same hash. *)
Theorem blob_hash_never_changes (env : Env) (op : Op) (s s' : State)
    (effects : list Effect) (nm' : NonMaterializedState) :
  Inv s →
  exec env op s = Some (s', effects) →
  nonMaterializedState s' = Some nm' →
  ∃ nm, nonMaterializedState s = Some nm ∧ hash nm' = hash nm.
Proof using Type.
  intros HI Hexec Hnm'. split_state s HI;
    destruct op; unfold_exec Hexec; cbn in Hexec;
    repeat (case_match; simplify_eq/=); simplify_eq/=; by eexists.
Qed.

(** *** Loads in flight *)

(** While a blob load is in flight, every operation that needs the data
    waits for that load: [read], [readAll], [write], [fallocate] and a
    [setattr] that does not truncate to zero leave the state as it is, start
    no second load, and go on when the installed promise is fulfilled. *)
Theorem operations_wait_for_the_load_in_flight (env : Env) (s : State) :
  Inv s → tag s = BLOB_LOADING →
  ∃ p, blobLoadingPromise s = Some p ∧
       ∀ size off blob desiredSize,
         read env size off s blob = Some (s, [], Suspended (OnPromise p)) ∧
         readAll env s blob = Some (s, [], Suspended (OnPromise p)) ∧
         write env s blob = Some (s, [], Suspended (OnPromise p)) ∧
         fallocate env s blob = Some (s, [], Suspended (OnPromise p)) ∧
         (desiredSize ≠ Some 0 →
          setattr env false desiredSize s blob
          = Some (s, [], Suspended (OnPromise p))).
Proof using Type.
  intros HI Ht. pose proof (Inv_checkInvariants s HI) as Hcheck.
  unfold Inv in HI. rewrite Ht in HI. destruct HI as (_ & [p Hp] & _).
  exists p. split; [done|]. intros size off blob desiredSize.
  unfold read, readAll, write, fallocate, setattr, runWhileDataLoaded,
    runWhileMaterialized, unlock.
  rewrite Ht, Hp, Hcheck. cbn [mbind option_bind].
  repeat split. intros Hne. by rewrite bool_decide_eq_false_2.
Qed.

(** With no blob at hand, neither behind the interest handle nor in the
    cache, a runner does not call its function: it asks for the blob once,
    installs a new promise and waits for it in the state [BLOB_LOADING]; the
    interest handle and the read ranges are reset.  When asking for the blob
    throws, the exception is passed on and the state stays
    [BLOB_NOT_LOADING], with no promise installed. *)
Theorem cache_miss_starts_one_load {R} (env : Env) (s : State)
    (nm : NonMaterializedState) (fn : Fn R) :
  Inv s → tag s = BLOB_NOT_LOADING → nonMaterializedState s = Some nm →
  interestHandle s = None ∨ handleObject env = None →
  cacheGet env = None →
  runWhileDataLoaded env s None fn
  = (if getBlobThrows env
     then Some (mkState BLOB_NOT_LOADING (Some nm) None None [],
                [], Raised system_error)
     else Some (mkState BLOB_LOADING (Some nm) (Some (newPromise env)) None [],
                [GetBlob (hash nm)], Suspended (OnPromise (newPromise env)))) ∧
  runWhileMaterialized env s None fn = runWhileDataLoaded env s None fn.
Proof using Type.
  intros HI Ht Hnm Hhandle Hcache.
  assert (Hget : getCachedBlob env s
                 = Some (mkState BLOB_NOT_LOADING (Some nm) None None [], None)).
  { unfold getCachedBlob, isMaterialized. rewrite Ht.
    rewrite bool_decide_eq_false_2 by done.
    assert ((if interestHandle s is Some _ then handleObject env else None)
            = None) as ->.
    { destruct Hhandle as [-> | ->]; [done|]. by destruct (interestHandle s). }
    rewrite Hnm, Hcache. cbn [mbind option_bind].
    unfold Inv in HI. rewrite Ht in HI. destruct HI as [_ Hp].
    destruct s as [t n p ih r]. cbn in *. by subst. }
  unfold runWhileDataLoaded, runWhileMaterialized. rewrite Ht, Hget.
  cbn [mbind option_bind]. split; [|done].
  unfold startLoadingData. cbn [nonMaterializedState mbind option_bind].
  by destruct (getBlobThrows env).
Qed.


(** *** What a read returns *)

(** A read of a non-materialized file that has the blob in hand returns the
    bytes of the blob from [off] on, at most [size] of them, and reports the
    end of the file exactly when the request reaches the end of the blob
    ([off + size] is at least the size of the blob).  The inode stays
    non-materialized and nothing is asked of the object store. *)
Theorem read_returns_the_requested_slice
    (env : Env) (size off : Z) (s : State) (blob : Blob) :
  Inv s → tag s = BLOB_NOT_LOADING →
  0 <= off <= INT64_MAX → 0 <= size →
  ∃ s',
    read env size off s (Some blob)
    = Some (s', [LogAccess; UpdateAtime],
            Returned (take (Z.to_nat size)
                           (drop (Z.to_nat off) (getContents blob)),
                      bool_decide (getSize blob <= off + size)))
    ∧ tag s' = BLOB_NOT_LOADING
    ∧ nonMaterializedState s' = nonMaterializedState s.
Proof using Type.
  intros HI Ht Hoff Hsize.
  unfold read, runWhileDataLoaded. rewrite Ht. cbn [mbind option_bind].
  unfold invoke, readFn. rewrite bool_decide_eq_false_2 by by rewrite Ht.
  cbn [mbind option_bind].
  assert (Hu : u64 off = off).
  { unfold u64. apply Z.mod_small. unfold INT64_MAX in Hoff. lia. }
  rewrite Hu.
  set (s1 := if CoverageSet_covers _ _ _ then _ else _).
  assert (Hs1 : tag s1 = tag s
                ∧ nonMaterializedState s1 = nonMaterializedState s
                ∧ blobLoadingPromise s1 = blobLoadingPromise s).
  { subst s1. by destruct (CoverageSet_covers _ _ _). }
  destruct Hs1 as (Ht1 & Hnm1 & Hp1).
  assert (Hcheck : checkInvariants s1 = true).
  { apply Inv_checkInvariants. unfold Inv in *.
    rewrite Ht1, Hnm1, Hp1. by rewrite Ht in HI |- *. }
  exists s1. unfold unlock, getSize.
  destruct (decide (off <= Z.of_nat (length (getContents blob)))) as [Hin|Hout].
  - rewrite bool_decide_eq_true_2 by done. cbn [negb mbind option_bind].
    rewrite Hcheck. cbn [app outcome_of].
    split; [|by rewrite Ht1, Hnm1, Ht].
    do 4 f_equal.
    assert (Hlen : length (drop (Z.to_nat off) (getContents blob))
                   = (length (getContents blob) - Z.to_nat off)%nat)
      by apply length_drop.
    destruct (decide (Z.of_nat (length (getContents blob)) <= off + size))
      as [Hend|Hmore].
    + rewrite (bool_decide_eq_true_2 (_ <= _)) by done.
      apply bool_decide_eq_true_2. apply drop_ge. lia.
    + rewrite (bool_decide_eq_false_2 (_ <= _)) by done.
      apply bool_decide_eq_false_2. intros Hnil.
      apply (f_equal length) in Hnil. rewrite length_drop in Hnil.
      cbn [length] in Hnil. lia.
  - rewrite bool_decide_eq_false_2 by done. cbn [negb mbind option_bind].
    rewrite Hcheck. cbn [app outcome_of].
    split; [|by rewrite Ht1, Hnm1, Ht].
    rewrite drop_ge by lia. rewrite take_nil.
    by rewrite bool_decide_eq_true_2 by lia.
Qed.

(** A single read from the start that covers the whole blob lets go of the
    blob: the interest handle is reset and no read range is kept.  A read
    from the start that stops short of the end keeps the handle and
    remembers the range. *)
Theorem full_read_releases_the_blob
    (env : Env) (size : Z) (s s' : State) (blob : Blob)
    (effects : list Effect) (o : Outcome (bytes * bool)) :
  tag s = BLOB_NOT_LOADING → readByteRanges s = [] →
  0 < size <= UINT64_MAX →
  read env size 0 s (Some blob) = Some (s', effects, o) →
  if bool_decide (getSize blob <= size)
  then interestHandle s' = None ∧ readByteRanges s' = []
  else interestHandle s' = interestHandle s ∧ readByteRanges s' = [(0, size)].
Proof using Type.
  intros Ht Hr Hsize Hread.
  unfold read, runWhileDataLoaded in Hread. rewrite Ht in Hread.
  cbn [mbind option_bind] in Hread. unfold invoke, readFn in Hread.
  rewrite bool_decide_eq_false_2 in Hread by by rewrite Ht.
  cbn [mbind option_bind] in Hread. rewrite Hr in Hread.
  assert (Hu0 : u64 0 = 0) by done.
  assert (Hu : u64 (0 + size) = size).
  { unfold u64. apply Z.mod_small. unfold UINT64_MAX in Hsize. lia. }
  rewrite Hu0, Hu in Hread.
  assert (Hlen : 0 <= getSize blob) by (unfold getSize; lia).
  unfold CoverageSet_add, CoverageSet_covers in Hread.
  destruct (decide (getSize blob <= size)) as [Hall|Hpart].
  - rewrite (bool_decide_eq_true_2 _ Hall).
    assert (Hcov : ∀ r : CoverageSet,
              r = (if 0 <? size then [(0, size)] else []) →
              covers_within (length r) r 0 (getSize blob) = true).
    { intros r ->. destruct (Z.ltb_spec 0 size) as [Hpos|Hzero].
      - cbn. destruct (Z.leb_spec (getSize blob) 0); [done|].
        rewrite (proj2 (Z.ltb_lt 0 size)) by done.
        destruct (Z.leb_spec (getSize blob) size); [done|lia].
      - cbn. destruct (Z.leb_spec (getSize blob) 0); [done|lia]. }
    cbn [readByteRanges setReadByteRanges] in Hread.
    rewrite (Hcov _ eq_refl) in Hread.
    destruct (negb _) in Hread; cbn [mbind option_bind] in Hread;
      unfold unlock in Hread; destruct (checkInvariants _) in Hread;
      by simplify_eq.
  - rewrite (bool_decide_eq_false_2 _ Hpart).
    assert (Hpos : (0 <? size) = true) by (apply Z.ltb_lt; lia).
    rewrite Hpos in Hread.
    cbn [readByteRanges setReadByteRanges length covers_within existsb fst snd]
      in Hread.
    assert (Hno : (getSize blob <=? 0) = false) by (apply Z.leb_gt; lia).
    assert (Hno' : (getSize blob <=? size) = false) by (apply Z.leb_gt; lia).
    rewrite Hno, Hno' in Hread. cbn in Hread. rewrite Hpos in Hread.
    cbn in Hread.
    destruct (negb _) in Hread; cbn [mbind option_bind] in Hread;
      unfold unlock in Hread; destruct (checkInvariants _) in Hread;
      by simplify_eq.
Qed.

(** *** What [stat] reports *)


(** *** Writing *)


End Inode.

(** *** A concrete inode

    The blob [hello] under an id of twenty bytes, an unknown size of
    [2^64 - 1], and surroundings in which the caches are empty and nothing
    fails. *)

Definition exampleId : ObjectId := zeros 19 ++ ["001"%byte].

Definition helloBlob : Blob :=
  mkBlob exampleId ["h"; "e"; "l"; "l"; "o"]%byte.

Definition quietEnv : Env := mkEnv None None false 1 false false [] 0 0 [].

Definition newState : State := FileInodeState UINT64_MAX (Some exampleId).

(** The state after [setattr] truncated the new inode to size zero. *)
Definition truncatedState : State :=
  mkState MATERIALIZED_IN_OVERLAY None None None [].

Lemma truncatedState_reachable : reachable UINT64_MAX truncatedState.
Proof.
  apply (reachable_step UINT64_MAX newState truncatedState quietEnv
           (Setattr false (Some 0) None) [UpdateJournal; MaterializeInParent]).
  - apply reachable_init.
  - reflexivity.
Qed.

Lemma materialized_state_invariant_witness :
  materialized_bare truncatedState ∧
  ∀ env op s' effects,
    exec UINT64_MAX env op truncatedState = Some (s', effects) →
    materialized_bare s' ∧ checkInvariants s' = true.
Proof.
  exact (materialized_state_invariant UINT64_MAX truncatedState
           truncatedState_reachable).
Defined.

Lemma read_past_end_of_blob_witness :
  ∃ s' effects,
    read quietEnv 4096 5 newState (Some helloBlob)
    = Some (s', effects, Returned ([], true))
    ∧ tag s' = BLOB_NOT_LOADING.
Proof.
  apply (read_past_end_of_blob quietEnv 4096 5 newState (Some helloBlob) helloBlob).
  - apply Inv_FileInodeState.
  - reflexivity.
  - unfold getSize, INT64_MAX. cbn. lia.
  - by left.
Defined.

(** The inode once [stat] has asked for the size of [hello] and the answer,
    five, has arrived. *)
Definition memoizedWorld : World :=
  mkWorld (mkState BLOB_NOT_LOADING
                   (Some (mkNonMaterializedState exampleId 5)) None None [])
          [].

Lemma memoizedWorld_reachable :
  wreachable UINT64_MAX (λ _, 5) exampleId memoizedWorld.
Proof.
  unfold wreachable.
  eapply rtc_l.
  { apply (wstep_op UINT64_MAX (λ _, 5) (newInode UINT64_MAX exampleId)
             quietEnv Stat newState [GetBlobSize exampleId]); [done|reflexivity]. }
  eapply rtc_l; [|apply rtc_refl].
  apply (wstep_size_fetched UINT64_MAX (λ _, 5)
           (mkWorld newState [exampleId]) 0 exampleId
           (inode memoizedWorld) [] (Returned (statWithSize 5)));
    reflexivity.
Qed.

Lemma stat_memoizes_blob_size_witness :
  stat UINT64_MAX quietEnv newState
  = Some (newState, [GetBlobSize exampleId], Suspended (OnBlobSize exampleId)) ∧
  ∃ o, stat UINT64_MAX quietEnv (inode memoizedWorld)
       = Some (inode memoizedWorld, [], o) ∧
       (isMaterialized (inode memoizedWorld) = false →
        o = Returned (statWithSize 5)).
Proof.
  split.
  - destruct (stat_memoizes_blob_size UINT64_MAX (λ _, 5) exampleId
                (newInode UINT64_MAX exampleId)) as (Hfirst & _ & _).
    + apply rtc_refl.
    + by apply (Hfirst quietEnv (mkNonMaterializedState exampleId UINT64_MAX)).
  - destruct (stat_memoizes_blob_size UINT64_MAX (λ _, 5) exampleId
                memoizedWorld memoizedWorld_reachable) as (_ & _ & Hlater).
    apply Hlater.
    + done.
    + by intros nm [= <-].
    + apply rtc_refl.
Defined.

(** The new inode while its blob is loading, with the promise 1. *)
Definition loadingState : State :=
  mkState BLOB_LOADING (Some (mkNonMaterializedState exampleId UINT64_MAX))
          (Some 1%nat) None [].

Lemma loadingState_Inv : Inv loadingState.
Proof. unfold Inv. cbn. by eauto. Qed.

Lemma materialization_is_final_witness :
  truncatedState = truncatedState ∧
  forallb (λ e, negb (asksStore e)) [LogAccess; UpdateMtimeAndCtime; UpdateJournal]
  = true.
Proof.
  apply (materialization_is_final UINT64_MAX quietEnv (Write None)
           truncatedState truncatedState
           [LogAccess; UpdateMtimeAndCtime; UpdateJournal]); reflexivity.
Defined.

Lemma no_fatal_check_fires_witness :
  is_Some (exec UINT64_MAX quietEnv (LoadFinished None) loadingState).
Proof.
  apply (no_fatal_check_fires UINT64_MAX quietEnv (LoadFinished None) loadingState).
  - exact loadingState_Inv.
  - intros tryResult _. discriminate.
Defined.

Lemma parent_is_told_when_materializing_witness :
  existsb isMaterializeInParent [UpdateJournal; MaterializeInParent]
  = negb (isMaterialized newState) && isMaterialized truncatedState.
Proof.
  apply (parent_is_told_when_materializing UINT64_MAX quietEnv
           (Setattr false (Some 0) None) newState truncatedState
           [UpdateJournal; MaterializeInParent]).
  - apply Inv_FileInodeState.
  - reflexivity.
Defined.

Lemma loading_promise_is_fulfilled_once_witness :
  (blobLoadingPromise truncatedState = blobLoadingPromise loadingState ∧
   fulfilled [UpdateJournal; MaterializeInParent; SetValue 1%nat None] = []) ∨
  (blobLoadingPromise loadingState = None ∧
   blobLoadingPromise truncatedState = Some (newPromise quietEnv) ∧
   tag truncatedState = BLOB_LOADING ∧
   fulfilled [UpdateJournal; MaterializeInParent; SetValue 1%nat None] = [] ∧
   ∃ nm, nonMaterializedState loadingState = Some nm ∧
         [UpdateJournal; MaterializeInParent; SetValue 1%nat None]
         = [GetBlob (hash nm)]) ∨
  (∃ p, blobLoadingPromise loadingState = Some p ∧
        blobLoadingPromise truncatedState = None ∧
        fulfilled [UpdateJournal; MaterializeInParent; SetValue 1%nat None] = [p]).
Proof.
  apply (loading_promise_is_fulfilled_once UINT64_MAX quietEnv
           (Setattr false (Some 0) None) loadingState truncatedState
           [UpdateJournal; MaterializeInParent; SetValue 1%nat None]).
  - exact loadingState_Inv.
  - reflexivity.
Defined.

Lemma blob_hash_never_changes_witness :
  ∃ nm, nonMaterializedState newState = Some nm ∧
        hash (mkNonMaterializedState exampleId UINT64_MAX) = hash nm.
Proof.
  apply (blob_hash_never_changes UINT64_MAX quietEnv (Read 4096 0 None)
           newState loadingState [GetBlob exampleId]).
  - apply Inv_FileInodeState.
  - reflexivity.
  - reflexivity.
Defined.

Lemma operations_wait_for_the_load_in_flight_witness :
  ∃ p, blobLoadingPromise loadingState = Some p ∧
       ∀ size off blob desiredSize,
         read quietEnv size off loadingState blob
         = Some (loadingState, [], Suspended (OnPromise p)) ∧
         readAll quietEnv loadingState blob
         = Some (loadingState, [], Suspended (OnPromise p)) ∧
         write quietEnv loadingState blob
         = Some (loadingState, [], Suspended (OnPromise p)) ∧
         fallocate quietEnv loadingState blob
         = Some (loadingState, [], Suspended (OnPromise p)) ∧
         (desiredSize ≠ Some 0 →
          setattr quietEnv false desiredSize loadingState blob
          = Some (loadingState, [], Suspended (OnPromise p))).
Proof.
  apply (operations_wait_for_the_load_in_flight quietEnv loadingState).
  - exact loadingState_Inv.
  - reflexivity.
Defined.

Lemma cache_miss_starts_one_load_witness :
  runWhileDataLoaded quietEnv newState None (readFn quietEnv 4096 0)
  = Some (loadingState, [GetBlob exampleId], Suspended (OnPromise 1%nat)) ∧
  runWhileMaterialized quietEnv newState None (readFn quietEnv 4096 0)
  = runWhileDataLoaded quietEnv newState None (readFn quietEnv 4096 0).
Proof.
  apply (cache_miss_starts_one_load quietEnv newState
           (mkNonMaterializedState exampleId UINT64_MAX) (readFn quietEnv 4096 0)).
  - apply Inv_FileInodeState.
  - reflexivity.
  - reflexivity.
  - by left.
  - reflexivity.
Defined.


Lemma read_returns_the_requested_slice_witness :
  ∃ s',
    read quietEnv 3 1 newState (Some helloBlob)
    = Some (s', [LogAccess; UpdateAtime],
            Returned (["e"; "l"; "l"]%byte, false))
    ∧ tag s' = BLOB_NOT_LOADING
    ∧ nonMaterializedState s' = nonMaterializedState newState.
Proof.
  apply (read_returns_the_requested_slice quietEnv 3 1 newState helloBlob).
  - apply Inv_FileInodeState.
  - reflexivity.
  - unfold INT64_MAX. lia.
  - lia.
Defined.

Lemma full_read_releases_the_blob_witness :
  interestHandle newState = None ∧ readByteRanges newState = [].
Proof.
  apply (full_read_releases_the_blob quietEnv 5 newState newState helloBlob
           [LogAccess; UpdateAtime]
           (Returned (["h"; "e"; "l"; "l"; "o"]%byte, true))).
  - reflexivity.
  - reflexivity.
  - unfold UINT64_MAX. lia.
  - reflexivity.
Defined.



End FileInode.
